(** * HPTT: verification of the transposition engine's public header

    Embedding of [src/hptt.h] (classes [ComputeNode], [Plan] and
    [Transpose<floatType>]) together with a model of the member functions
    the header only declares.  Those are written down from the prose
    specification and are marked as such. *)

From Stdlib Require Import ZArith Lia PrimFloat.
From stdpp Require Import base tactics option numbers strings gmap list.

Set Warnings "-register-all".
Local Open Scope Z_scope.

(** ** Machine integers *)

(** [int] is a 32-bit two's-complement integer; arithmetic on it is taken
    modulo 2^32 and re-centred around 0. *)
Definition INT_MIN : Z := - 2 ^ 31.
Definition INT_MAX : Z := 2 ^ 31 - 1.
Definition wrap_int (z : Z) : Z := (z + 2 ^ 31) mod 2 ^ 32 - 2 ^ 31.
Definition int_mul (a b : Z) : Z := wrap_int (a * b).

(** [size_t] is an unsigned integer of [w] bits; converting an [int] to it
    reduces modulo 2^w. *)
Definition to_size_t (w : N) (z : Z) : Z := z mod 2 ^ Z.of_N w.

(** What a constructor or member function can end with instead of a value:
    the exceptions of the C++ runtime the header can raise
    ([std::length_error] from a vector, [std::bad_alloc] from an
    allocation), the call [exit(-1)] of the error macro, and the rejection
    of the index normaliser. *)
Inductive error : Set :=
  | std_length_error
  | std_bad_alloc
  | exit_failure
  | InvalidShape.

Inductive outcome (A : Type) : Type :=
  | Ok (a : A)
  | Throw (e : error).
Arguments Ok {A} a.
Arguments Throw {A} e.

Definition outcome_bind {A B} (m : outcome A) (f : A → outcome B) : outcome B :=
  match m with
  | Ok a => f a
  | Throw e => Throw e
  end.

(** [HPTT_ERROR_INFO(str)]: with [DEBUG] defined it prints the message and
    calls [exit(-1)]; without, it expands to nothing. *)
Definition HPTT_ERROR_INFO (DEBUG : bool) (str : string) : outcome unit :=
  if DEBUG then Throw exit_failure else Ok ().

(** ** REGISTER_BITS and the element types *)

Inductive arch : Set := AVX | ARM.

(** [#define REGISTER_BITS 256], redefined to 128 under [HPTT_ARCH_ARM]. *)
Definition REGISTER_BITS (a : arch) : Z :=
  match a with
  | AVX => 256
  | ARM => 128
  end.

(** The four instantiations [extern template class Transpose<...>]. *)
Inductive floatType : Set := Float | Double | FloatComplex | DoubleComplex.

Definition sizeof (t : floatType) : Z :=
  match t with
  | Float => 4
  | Double => 8
  | FloatComplex => 8
  | DoubleComplex => 16
  end.

(** [static constexpr int blocking_micro_ = REGISTER_BITS / 8 / sizeof(floatType);] *)
Definition blocking_micro_ (a : arch) (t : floatType) : Z :=
  REGISTER_BITS a / 8 / sizeof t.

(** [static constexpr int blocking_ = blocking_micro_ * 4;] *)
Definition blocking_ (a : arch) (t : floatType) : Z :=
  blocking_micro_ a t * 4.

(** The lane count of the specification: register width in bits over
    8·sizeof(elem). *)
Definition lanes (a : arch) (t : floatType) : Z :=
  REGISTER_BITS a / (8 * sizeof t).

(** ** ComputeNode *)

(** [class ComputeNode]: five [size_t] members and the owning pointer to
    the successor ([None] is [nullptr]). *)
Inductive ComputeNode : Type := mkComputeNode {
  start : Z;
  end_ : Z;
  inc : Z;
  lda : Z;
  ldb : Z;
  next : option ComputeNode
}.

(** [ComputeNode() : start(-1), end(-1), inc(-1), lda(-1), ldb(-1), next(nullptr) {}] *)
Definition ComputeNode_ctor (w : N) : ComputeNode :=
  {| start := to_size_t w (-1);
     end_ := to_size_t w (-1);
     inc := to_size_t w (-1);
     lda := to_size_t w (-1);
     ldb := to_size_t w (-1);
     next := None |}.

(** ** Plan *)

Record Plan : Type := mkPlan {
  numTasks_ : Z;
  loopOrder_ : list Z;
  numThreadsAtLoop_ : list Z;
  rootNodes_ : list ComputeNode
}.

(** [Plan() : rootNodes_(nullptr), numTasks_(0) { }].  A null [rootNodes_]
    and an array of no nodes both read as the empty list. *)
Definition Plan_default : Plan :=
  {| numTasks_ := 0; loopOrder_ := []; numThreadsAtLoop_ := []; rootNodes_ := [] |}.

(** [new ComputeNode[n]]: [n] default-constructed nodes.  A negative [n]
    converts to a count no allocation can serve and the expression ends in
    [std::bad_alloc]; otherwise memory is taken to suffice. *)
Definition new_ComputeNode_array (w : N) (n : Z) : outcome (list ComputeNode) :=
  if decide (n < 0) then Throw std_bad_alloc
  else Ok (replicate (Z.to_nat n) (ComputeNode_ctor w)).

(** [Plan(std::vector<int> loopOrder, std::vector<int> numThreadsAtLoop)]:
    [numTasks_ = 1; for (auto nt : numThreadsAtLoop) numTasks_ *= nt;]
    then [rootNodes_ = new ComputeNode[numTasks_]]. *)
Definition Plan_ctor (w : N) (loopOrder numThreadsAtLoop : list Z) : outcome Plan :=
  let numTasks := fold_left int_mul numThreadsAtLoop 1 in
  outcome_bind (new_ComputeNode_array w numTasks) (λ nodes,
    Ok {| numTasks_ := numTasks;
          loopOrder_ := loopOrder;
          numThreadsAtLoop_ := numThreadsAtLoop;
          rootNodes_ := nodes |}).

(** [const ComputeNode* getRootNode_const(int threadId) const] *)
Definition getRootNode_const (p : Plan) (threadId : Z) : option ComputeNode :=
  if decide (0 ≤ threadId) then rootNodes_ p !! Z.to_nat threadId else None.

(** [int getNumTasks() const { return numTasks_; }] *)
Definition getNumTasks (p : Plan) : Z := numTasks_ p.

(** The mathematical product of the entries of a vector. *)
Definition product (l : list Z) : Z := foldr Z.mul 1 l.

(** ** Transpose<floatType> *)

Inductive SelectionMethod : Set := ESTIMATE | MEASURE | PATIENT | CRAZY.

(** The operations the engine needs from an element type: which of the
    four instantiations it is, addition, multiplication and the test
    [beta == 0]. *)
Class ElementTraits (T : Type) : Type := {
  el_type : floatType;
  el_add : T → T → T;
  el_mul : T → T → T;
  el_is_zero : T → bool
}.

(** The data members of [Transpose<floatType>].  Pointers are addresses
    counted in elements; [perm_] holds axis numbers;
    [masterPlan_ = None] is the null [shared_ptr];
    [blocking_constStride1_ = None] is an [int] that was never
    initialised (indeterminate value). *)
Record Transpose (T : Type) : Type := mkTranspose {
  A_ : Z;
  B_ : Z;
  alpha_ : T;
  beta_ : T;
  dim_ : Z;
  sizeA_ : list Z;
  perm_ : list nat;
  outerSizeA_ : list Z;
  outerSizeB_ : list Z;
  lda_ : list Z;
  ldb_ : list Z;
  numThreads_ : Z;
  selectedParallelStrategyId_ : Z;
  masterPlan_ : option Plan;
  selectionMethod_ : SelectionMethod;
  blocking_constStride1_ : option Z
}.
Arguments mkTranspose {T}.
Arguments A_ {T} t.
Arguments B_ {T} t.
Arguments alpha_ {T} t.
Arguments beta_ {T} t.
Arguments dim_ {T} t.
Arguments sizeA_ {T} t.
Arguments perm_ {T} t.
Arguments outerSizeA_ {T} t.
Arguments outerSizeB_ {T} t.
Arguments lda_ {T} t.
Arguments ldb_ {T} t.
Arguments numThreads_ {T} t.
Arguments selectedParallelStrategyId_ {T} t.
Arguments masterPlan_ {T} t.
Arguments selectionMethod_ {T} t.
Arguments blocking_constStride1_ {T} t.

(** Reading entry [k] of an array of integers. *)
Definition atZ (l : list Z) (k : nat) : Z := default 0 (l !! k).
Definition atN (l : list nat) (k : nat) : nat := default 0%nat (l !! k).

(** The normalised problem: sizes of A, permutation, outer sizes. *)
Record shape : Type := mkShape {
  sh_size : list Z;
  sh_perm : list nat;
  sh_outerA : list Z;
  sh_outerB : list Z
}.

Definition rank (sh : shape) : nat := length (sh_size sh).

Section Members.
Context {T : Type}.

(** [Transpose(const Transpose &other)]: the initialiser list names
    every member except [blocking_constStride1_], which is therefore
    left uninitialised. *)
Definition Transpose_copy (other : Transpose T) : Transpose T :=
  {| A_ := A_ other;
     B_ := B_ other;
     alpha_ := alpha_ other;
     beta_ := beta_ other;
     dim_ := dim_ other;
     numThreads_ := numThreads_ other;
     masterPlan_ := masterPlan_ other;
     selectionMethod_ := selectionMethod_ other;
     selectedParallelStrategyId_ := selectedParallelStrategyId_ other;
     sizeA_ := sizeA_ other;
     perm_ := perm_ other;
     outerSizeA_ := outerSizeA_ other;
     outerSizeB_ := outerSizeB_ other;
     lda_ := lda_ other;
     ldb_ := ldb_ other;
     blocking_constStride1_ := None |}.

(** Getters and setters. *)
Definition getNumThreads (t : Transpose T) : Z := numThreads_ t.
Definition getAlpha (t : Transpose T) : T := alpha_ t.
Definition getBeta (t : Transpose T) : T := beta_ t.
Definition getInputPtr (t : Transpose T) : Z := A_ t.
Definition getOutputPtr (t : Transpose T) : Z := B_ t.

Definition setNumThreads (numThreads : Z) (t : Transpose T) : Transpose T :=
  mkTranspose (A_ t) (B_ t) (alpha_ t) (beta_ t) (dim_ t) (sizeA_ t) (perm_ t)
    (outerSizeA_ t) (outerSizeB_ t) (lda_ t) (ldb_ t) numThreads
    (selectedParallelStrategyId_ t) (masterPlan_ t) (selectionMethod_ t)
    (blocking_constStride1_ t).

Definition setParallelStrategy (id : Z) (t : Transpose T) : Transpose T :=
  mkTranspose (A_ t) (B_ t) (alpha_ t) (beta_ t) (dim_ t) (sizeA_ t) (perm_ t)
    (outerSizeA_ t) (outerSizeB_ t) (lda_ t) (ldb_ t) (numThreads_ t)
    id (masterPlan_ t) (selectionMethod_ t) (blocking_constStride1_ t).

Definition setAlpha (alpha : T) (t : Transpose T) : Transpose T :=
  mkTranspose (A_ t) (B_ t) alpha (beta_ t) (dim_ t) (sizeA_ t) (perm_ t)
    (outerSizeA_ t) (outerSizeB_ t) (lda_ t) (ldb_ t) (numThreads_ t)
    (selectedParallelStrategyId_ t) (masterPlan_ t) (selectionMethod_ t)
    (blocking_constStride1_ t).

Definition setBeta (beta : T) (t : Transpose T) : Transpose T :=
  mkTranspose (A_ t) (B_ t) (alpha_ t) beta (dim_ t) (sizeA_ t) (perm_ t)
    (outerSizeA_ t) (outerSizeB_ t) (lda_ t) (ldb_ t) (numThreads_ t)
    (selectedParallelStrategyId_ t) (masterPlan_ t) (selectionMethod_ t)
    (blocking_constStride1_ t).

Definition setInputPtr (A : Z) (t : Transpose T) : Transpose T :=
  mkTranspose A (B_ t) (alpha_ t) (beta_ t) (dim_ t) (sizeA_ t) (perm_ t)
    (outerSizeA_ t) (outerSizeB_ t) (lda_ t) (ldb_ t) (numThreads_ t)
    (selectedParallelStrategyId_ t) (masterPlan_ t) (selectionMethod_ t)
    (blocking_constStride1_ t).

Definition setOutputPtr (B : Z) (t : Transpose T) : Transpose T :=
  mkTranspose (A_ t) B (alpha_ t) (beta_ t) (dim_ t) (sizeA_ t) (perm_ t)
    (outerSizeA_ t) (outerSizeB_ t) (lda_ t) (ldb_ t) (numThreads_ t)
    (selectedParallelStrategyId_ t) (masterPlan_ t) (selectionMethod_ t)
    (blocking_constStride1_ t).

(** The members a plan is built from: everything that describes the
    problem shape and the selected plan, as opposed to the scalars, the
    buffer pointers and the thread count. *)
Definition same_shape_and_plan (t t' : Transpose T) : Prop :=
  masterPlan_ t' = masterPlan_ t ∧ dim_ t' = dim_ t ∧
  sizeA_ t' = sizeA_ t ∧ perm_ t' = perm_ t ∧
  outerSizeA_ t' = outerSizeA_ t ∧ outerSizeB_ t' = outerSizeB_ t ∧
  lda_ t' = lda_ t ∧ ldb_ t' = ldb_ t ∧
  selectionMethod_ t' = selectionMethod_ t ∧
  selectedParallelStrategyId_ t' = selectedParallelStrategyId_ t ∧
  blocking_constStride1_ t' = blocking_constStride1_ t.
End Members.

(** ** The index normaliser *)

(** Modelled from the spec: the permutation test of the validation, which
    the header does not contain.  Section 3: "values are a set equal to
    {0..d)". *)
Definition perm_ok (perm : list Z) (d : nat) : bool :=
  forallb (λ i, bool_decide (0 ≤ atZ perm i < Z.of_nat d)) (seq 0 d) &&
  forallb (λ v, existsb (λ i, bool_decide (atZ perm i = Z.of_nat v)) (seq 0 d)) (seq 0 d).

(** Modelled from the spec: the outer-size test of the validation, which
    the header does not contain.  Section 3: [O_A[k] ≥ S_A[k]] and
    [O_B[k] ≥ S_B[k]], where axis [π[k]] of B has the logical size of
    axis [k] of A. *)
Definition outer_ok (sizeA perm outerSizeA outerSizeB : list Z) (d : nat) : bool :=
  forallb (λ k, bool_decide (atZ sizeA k ≤ atZ outerSizeA k)) (seq 0 d) &&
  forallb (λ k, bool_decide (atZ sizeA k ≤ atZ outerSizeB (Z.to_nat (atZ perm k)))) (seq 0 d).

(** Modelled from the spec: the aliasing test of the validation, which
    the header does not contain.  Section 4.2: "same pointer with
    overlapping extents is rejected". *)
Definition same_buffer (A B : Z) (sizeA : list Z) (d : nat) : bool :=
  bool_decide (A = B) && forallb (λ k, bool_decide (0 < atZ sizeA k)) (seq 0 d).

(** Modelled from the spec: [verifyParameter] is only declared in the
    header.  Section 4.2: reject with InvalidShape if [d < 1], if π is not
    a permutation, if an outer size is below the logical size, or if A and
    B alias. *)
Definition verifyParameter {T} (this : Transpose T)
    (size perm outerSizeA outerSizeB : list Z) (dim : Z) : outcome unit :=
  if decide (dim < 1) then Throw InvalidShape
  else if negb (perm_ok perm (Z.to_nat dim)) then Throw InvalidShape
  else if negb (outer_ok size perm outerSizeA outerSizeB (Z.to_nat dim)) then Throw InvalidShape
  else if same_buffer (A_ this) (B_ this) size (Z.to_nat dim) then Throw InvalidShape
  else Ok ().

(** The shape the arrays handed to the constructor describe. *)
Definition input_shape (sizeA perm outerSizeA outerSizeB : list Z) (dim : Z) : shape :=
  let d := Z.to_nat dim in
  {| sh_size := take d sizeA;
     sh_perm := Z.to_nat <$> take d perm;
     sh_outerA := take d outerSizeA;
     sh_outerB := take d outerSizeB |}.

(** Modelled from the spec: the fusing step of [fuseIndices], which is
    only declared in the header.  Sections 3 and 4.2: an adjacent pair
    [(k, k+1)] of A is fusible when [π[k]+1 = π[k+1]] and neither axis
    carries padding in A or in B. *)
Definition fusible (sh : shape) (k : nat) : bool :=
  match sh_perm sh !! k, sh_perm sh !! S k with
  | Some q, Some q' =>
      bool_decide (q' = S q) &&
      bool_decide (atZ (sh_outerA sh) k = atZ (sh_size sh) k) &&
      bool_decide (atZ (sh_outerA sh) (S k) = atZ (sh_size sh) (S k)) &&
      bool_decide (atZ (sh_outerB sh) q = atZ (sh_size sh) k) &&
      bool_decide (atZ (sh_outerB sh) (S q) = atZ (sh_size sh) (S k))
  | _, _ => false
  end.

(** Entries [k] and [k+1] of a list replaced by their product. *)
Definition merge_at (k : nat) (l : list Z) : list Z :=
  take k l ++ (atZ l k * atZ l (S k)) :: drop (S (S k)) l.

(** Modelled from the spec: coalescing the pair [(k, k+1)]: sizes and
    outer sizes are multiplied, B's axes [π[k]] and [π[k]+1] become one,
    and the permutation is renumbered over the remaining axes. *)
Definition fuse_pair (k : nat) (sh : shape) : shape :=
  let q := atN (sh_perm sh) k in
  {| sh_size := merge_at k (sh_size sh);
     sh_perm := (λ v, if decide (v ≤ q)%nat then v else pred v) <$> delete (S k) (sh_perm sh);
     sh_outerA := merge_at k (sh_outerA sh);
     sh_outerB := merge_at q (sh_outerB sh) |}.

(** Modelled from the spec: the search of [fuseIndices], which is only
    declared in the header, for the highest fusible pair below position
    [n] (section 4.2, "fuse the highest-index pair first"). *)
Fixpoint find_fusible (sh : shape) (n : nat) : option nat :=
  match n with
  | O => None
  | S k => if fusible sh k then Some k else find_fusible sh k
  end.

(** Modelled from the spec: the rounds of [fuseIndices], which is only
    declared in the header (section 3, "rerun until no fusible pair
    remains").  Each round lowers the rank by one, so [rank sh] rounds are
    enough. *)
Fixpoint fuse_rounds (n : nat) (sh : shape) : shape :=
  match n with
  | O => sh
  | S n' =>
      match find_fusible sh (rank sh) with
      | Some k => fuse_rounds n' (fuse_pair k sh)
      | None => sh
      end
  end.

(** Modelled from the spec: the normal form [fuseIndices], only declared
    in the header, brings a shape to (sections 3 and 4.2). *)
Definition fuse (sh : shape) : shape := fuse_rounds (rank sh) sh.

(** Modelled from the spec: the leading dimensions that
    [computeLeadingDimensions], only declared in the header, produces
    (section 3): [ld[0] = acc], [ld[k] = ld[k-1] · outer[k-1]]. *)
Fixpoint prefix_products (acc : Z) (outer : list Z) : list Z :=
  match outer with
  | [] => []
  | o :: outer' => acc :: prefix_products (acc * o) outer'
  end.

Section Normaliser.
Context {T : Type}.

(** Storing a shape in the object. *)
Definition set_shape (sh : shape) (t : Transpose T) : Transpose T :=
  mkTranspose (A_ t) (B_ t) (alpha_ t) (beta_ t) (Z.of_nat (rank sh)) (sh_size sh)
    (sh_perm sh) (sh_outerA sh) (sh_outerB sh) (lda_ t) (ldb_ t) (numThreads_ t)
    (selectedParallelStrategyId_ t) (masterPlan_ t) (selectionMethod_ t)
    (blocking_constStride1_ t).

(** Modelled from the spec: [fuseIndices] is only declared in the header;
    the constructor's comment says it "initializes dim_, outerSizeA,
    outerSizeB, sizeA and perm". *)
Definition fuseIndices (sizeA perm outerSizeA outerSizeB : list Z) (dim : Z)
    (t : Transpose T) : Transpose T :=
  set_shape (fuse (input_shape sizeA perm outerSizeA outerSizeB dim)) t.

(** Modelled from the spec: [computeLeadingDimensions] is only declared in
    the header.  Section 4.2: [lda], [ldb] are the prefix products of the
    outer sizes of A and of B, with [lda[0] = 1]. *)
Definition computeLeadingDimensions (t : Transpose T) : Transpose T :=
  mkTranspose (A_ t) (B_ t) (alpha_ t) (beta_ t) (dim_ t) (sizeA_ t) (perm_ t)
    (outerSizeA_ t) (outerSizeB_ t)
    (prefix_products 1 (outerSizeA_ t)) (prefix_products 1 (outerSizeB_ t))
    (numThreads_ t) (selectedParallelStrategyId_ t) (masterPlan_ t)
    (selectionMethod_ t) (blocking_constStride1_ t).

(** [std::vector::resize(dim)] on an empty vector: a negative [int]
    converts to a [size_t] beyond [max_size()] and raises
    [std::length_error]; otherwise the vector holds [dim] zeros.  Memory
    is taken to suffice. *)
Definition vector_resize {X} (zero : X) (dim : Z) : outcome (list X) :=
  if decide (dim < 0) then Throw std_length_error
  else Ok (replicate (Z.to_nat dim) zero).

(** The six calls [sizeA_.resize(dim); perm_.resize(dim); ...;
    ldb_.resize(dim);] that open the constructor's body. *)
Definition resize_members (dim : Z) (t : Transpose T) : outcome (Transpose T) :=
  outcome_bind (vector_resize 0 dim) (λ sizeA0,
  outcome_bind (vector_resize 0%nat dim) (λ perm0,
  outcome_bind (vector_resize 0 dim) (λ outerSizeA0,
  outcome_bind (vector_resize 0 dim) (λ outerSizeB0,
  outcome_bind (vector_resize 0 dim) (λ lda0,
  outcome_bind (vector_resize 0 dim) (λ ldb0,
  Ok (mkTranspose (A_ t) (B_ t) (alpha_ t) (beta_ t) (dim_ t) sizeA0 perm0
        outerSizeA0 outerSizeB0 lda0 ldb0 (numThreads_ t)
        (selectedParallelStrategyId_ t) (masterPlan_ t) (selectionMethod_ t)
        (blocking_constStride1_ t)))))))).

(** The primary constructor: the member initialisers (the vectors start
    empty), the six [resize] calls, then [verifyParameter], [fuseIndices]
    and [computeLeadingDimensions].  The check of [blocking_constStride1_]
    under [DEBUG] only prints. *)
Definition Transpose_ctor (sizeA perm outerSizeA outerSizeB : list Z) (dim : Z)
    (A : Z) (alpha : T) (B : Z) (beta : T)
    (selectionMethod : SelectionMethod) (numThreads : Z) : outcome (Transpose T) :=
  let this0 :=
    {| A_ := A; B_ := B; alpha_ := alpha; beta_ := beta; dim_ := -1;
       numThreads_ := numThreads; masterPlan_ := None;
       blocking_constStride1_ := Some 1;
       selectionMethod_ := selectionMethod;
       selectedParallelStrategyId_ := -1;
       sizeA_ := []; perm_ := [];
       outerSizeA_ := []; outerSizeB_ := [];
       lda_ := []; ldb_ := [] |} in
  outcome_bind (resize_members dim this0) (λ this,
  outcome_bind (verifyParameter this sizeA perm outerSizeA outerSizeB dim) (λ _,
  Ok (computeLeadingDimensions
        (fuseIndices sizeA perm outerSizeA outerSizeB dim this)))).

(** The object the constructor would build if it skipped the fusing step. *)
Definition Transpose_unfused (sh : shape) (this : Transpose T) : Transpose T :=
  computeLeadingDimensions (set_shape sh this).
End Normaliser.

(** ** Plans and the executor *)

(** The memory both tensors live in, addressed in elements. *)
Definition heap (T : Type) : Type := Z → T.

Definition store {T} (h : heap T) (b : Z) (v : T) : heap T :=
  λ z, if decide (z = b) then v else h z.

(** [for (i = start; i < end; i += inc)]: the values [i] takes, or [None]
    when the fuel runs out. *)
Fixpoint for_loop (fuel : nat) (i e step : Z) : option (list Z) :=
  if decide (i < e) then
    match fuel with
    | O => None
    | S fuel' => cons i <$> for_loop fuel' (i + step) e step
    end
  else Some [].

(** [e - s] rounds are enough for every loop whose step is positive; a loop
    that never ends (step 0 below the bound) yields [None]. *)
Definition loop_iterations (s e step : Z) : option (list Z) :=
  for_loop (Z.to_nat (e - s)) s e step.

(** The canonical loop nest over a list of ranges [(first, length, stride
    in A, stride in B)], outermost first: the pairs of addresses it visits,
    in order. *)
Fixpoint points (ranges : list (Z * Z * Z * Z)) (pa pb : Z) : list (Z * Z) :=
  match ranges with
  | [] => [(pa, pb)]
  | (first, len, la, lb) :: ranges' =>
      x ← seqZ first len; points ranges' (pa + x * la) (pb + x * lb)
  end.

(** The range a tile (extent, stride in A, stride in B) stands for. *)
Definition box_range (tile : Z * Z * Z) : Z * Z * Z * Z :=
  let '(e, la, lb) := tile in (0, e, la, lb).

(** Modelled from the spec: the kernel the terminal node hands off to
    (sections 4.3 and 4.4), which the header does not contain.  It covers
    the current tile, given as a list of (extent, stride in A, stride in
    B); a full tile is the micro-kernel's footprint, a clipped one the
    scalar cleanup of the remainder.  Every element of the tile gets one
    update. *)
Definition kernel (box : list (Z * Z * Z)) (pa pb : Z) : list (Z * Z) :=
  points (box_range <$> box) pa pb.

(** Modelled from the spec: the macro-kernel walker (section 4.4), which
    the header does not contain.  A node with a successor iterates
    [i = start; i < end; i += inc], advances the A and B pointers by
    [i·lda] and [i·ldb] and descends with the tile [i, min(i+inc, end))];
    the node without successor is the terminal one and calls the kernel.
    The result is the sequence of element updates, each a pair (address
    read in A, address updated in B); [None] if a loop does not end. *)
Fixpoint walk (n : ComputeNode) (box : list (Z * Z * Z)) (pa pb : Z) : option (list (Z * Z)) :=
  match n with
  | mkComputeNode s e i la lb None => Some (kernel box pa pb)
  | mkComputeNode s e i la lb (Some nx) =>
      xs ← loop_iterations s e i;
      mjoin <$> mapM (λ x, walk nx (box ++ [(Z.min i (e - x), la, lb)])
                             (pa + x * la) (pb + x * lb)) xs
  end.

(** Modelled from the spec: worker [tid]'s mixed-radix decomposition over
    the parallelism vector (section 4.5), first level most significant. *)
Fixpoint decompose (tid : Z) (par : list Z) : list Z :=
  match par with
  | [] => []
  | p :: par' => tid / product par' :: decompose (tid mod product par') par'
  end.

(** Modelled from the spec: the partition of an axis of size [S] over [p]
    workers (section 4.5), which the header does not contain: contiguous
    chunks of ⌈S/p⌉ indices, the last ones possibly shorter.  Worker
    number [c] starts here ... *)
Definition chunk_start (S p c : Z) : Z := Z.min S (c * ((S + p - 1) / p)).

(** Modelled from the spec: ... and ends before this index (section 4.5). *)
Definition chunk_end (S p c : Z) : Z := Z.min S ((c + 1) * ((S + p - 1) / p)).

(** Modelled from the spec: the schedules of the workers (section 5):
    each worker runs its own sequence in order, and one worker at a time
    performs its next element update. *)
Inductive interleave {X : Type} : list (list X) → list X → Prop :=
  | interleave_done uss : Forall (λ us, us = []) uss → interleave uss []
  | interleave_step uss tid x us rest :
      uss !! tid = Some (x :: us) →
      interleave (<[tid := us]> uss) rest →
      interleave uss (x :: rest).

Section Executor.
Context {T : Type} `{ElementTraits T}.
Variables (hw : arch) (w : N).

(** Modelled from the spec: [getIncrement] is only declared in the header.
    Section 4.3: tiles of edge M = [blocking_] along axis 0 of A and along
    the axis of A that lands on axis 0 of B; when π[0] = 0 the
    constant-stride-1 specialisation applies, whose blocking is treated
    as 1. *)
Definition getIncrement (t : Transpose T) (loopIdx : nat) : Z :=
  if decide (atN (perm_ t) 0 = 0%nat) then 1
  else if decide (loopIdx = 0%nat ∨ atN (perm_ t) loopIdx = 0%nat)
       then blocking_ hw el_type else 1.

(** Modelled from the spec: the ComputeTree of one worker (sections 3 and
    4.5).  One node per loop level, for axis [k] with [p] workers of which
    this one is number [c], followed by the terminal node. *)
Fixpoint build_tree (t : Transpose T) (levels : list (nat * Z * Z)) : ComputeNode :=
  match levels with
  | [] => ComputeNode_ctor w
  | (k, p, c) :: levels' =>
      {| start := chunk_start (atZ (sizeA_ t) k) p c;
         end_ := chunk_end (atZ (sizeA_ t) k) p c;
         inc := getIncrement t k;
         lda := atZ (lda_ t) k;
         ldb := atZ (ldb_ t) (atN (perm_ t) k);
         next := Some (build_tree t levels') |}
  end.

(** Modelled from the spec: the tree of worker [tid] for a loop order and
    a parallelism vector (section 4.5). *)
Definition task_tree (t : Transpose T) (loopOrder : list nat) (par : list Z) (tid : Z) : ComputeNode :=
  build_tree t (zip (zip loopOrder par) (decompose tid par)).

(** Storing the selected plan in [masterPlan_]. *)
Definition setMasterPlan (p : option Plan) (t : Transpose T) : Transpose T :=
  mkTranspose (A_ t) (B_ t) (alpha_ t) (beta_ t) (dim_ t) (sizeA_ t) (perm_ t)
    (outerSizeA_ t) (outerSizeB_ t) (lda_ t) (ldb_ t) (numThreads_ t)
    (selectedParallelStrategyId_ t) p (selectionMethod_ t)
    (blocking_constStride1_ t).

(** Modelled from the spec: the root nodes of a plan are filled with the
    workers' trees (section 4.5). *)
Definition fill_trees (t : Transpose T) (loopOrder : list nat) (par : list Z) (p : Plan) : Plan :=
  {| numTasks_ := numTasks_ p;
     loopOrder_ := loopOrder_ p;
     numThreadsAtLoop_ := numThreadsAtLoop_ p;
     rootNodes_ := (λ tid, task_tree t loopOrder par (Z.of_nat tid))
                     <$> seq 0 (length (rootNodes_ p)) |}.

(** Modelled from the spec: [createPlan] is only declared in the header.
    The loop order and the parallelism vector the planner settles on are
    arguments here; the plan is constructed by [Plan]'s constructor and its
    root nodes are filled with the workers' trees. *)
Definition createPlan (loopOrder : list nat) (par : list Z) (t : Transpose T) : outcome (Transpose T) :=
  outcome_bind (Plan_ctor w (Z.of_nat <$> loopOrder) par) (λ p,
    Ok (setMasterPlan (Some (fill_trees t loopOrder par p)) t)).

(** Modelled from the spec: the [create_plan] functions are only declared
    in the header.  Sections 4.9 and 6: build the object, select its plan
    and hand out the owning handle; the handle is null ([None]) for
    shape, permutation or stride violations. *)
Definition create_plan (loopOrder : list nat) (par : list Z)
    (perm : list Z) (dim : Z) (alpha : T) (A : Z) (sizeA outerSizeA : list Z)
    (beta : T) (B : Z) (outerSizeB : list Z)
    (selectionMethod : SelectionMethod) (numThreads : Z) : option (Transpose T) :=
  match Transpose_ctor sizeA perm outerSizeA outerSizeB dim A alpha B beta
          selectionMethod numThreads with
  | Ok t =>
      match createPlan loopOrder par t with
      | Ok t' => Some t'
      | Throw _ => None
      end
  | Throw _ => None
  end.

(** Modelled from the spec: what the planner, which the header does not
    contain, may settle on (sections 3, 4.6 and 4.7): a loop order that is
    a permutation of the axes, and one positive thread count per loop
    level whose product does not exceed the thread count. *)
Definition candidate (t : Transpose T) (loopOrder : list nat) (par : list Z) : Prop :=
  loopOrder ≡ₚ seq 0 (length (sizeA_ t)) ∧
  length par = length loopOrder ∧
  Forall (λ p, 1 ≤ p) par ∧
  product par ≤ numThreads_ t ∧ numThreads_ t ≤ INT_MAX.

(** Modelled from the spec: the value one element update stores (sections
    3 and 4.3): [α·a + β·b], and [α·a] in the β = 0 variant, which does
    not load [b]. *)
Definition axpby (betaIsZero : bool) (alpha beta a b : T) : T :=
  if betaIsZero then el_mul alpha a
  else el_add (el_mul alpha a) (el_mul beta b).

(** In the β = 0 variant nothing is lost when [β·b] is neutral for the
    addition, as it is in exact arithmetic. *)
Definition beta_zero_neutral (beta : T) : Prop :=
  el_is_zero beta = true → ∀ x y, el_add x (el_mul beta y) = x.

(** Modelled from the spec: one element update [B ← α·A + β·B], given as
    (address in A, address in B). *)
Definition update (betaIsZero : bool) (alpha beta : T) (h : heap T) (ab : Z * Z) : heap T :=
  store h ab.2 (axpby betaIsZero alpha beta (h ab.1) (h ab.2)).

(** A sequence of element updates, performed in order. *)
Definition run_updates (betaIsZero : bool) (alpha beta : T) (us : list (Z * Z)) (h : heap T) : heap T :=
  fold_left (update betaIsZero alpha beta) us h.

(** Modelled from the spec: the updates of worker [tid] (section 5): its
    tree walked from the pointers A, B. *)
Definition task_trace (t : Transpose T) (p : Plan) (tid : nat) : option (list (Z * Z)) :=
  root ← getRootNode_const p (Z.of_nat tid);
  walk root [] (A_ t) (B_ t).

(** Modelled from the spec: the updates of all workers of the master plan
    (section 5); without a master plan there is nothing to run. *)
Definition traces (t : Transpose T) : option (list (list (Z * Z))) :=
  p ← masterPlan_ t;
  mapM (task_trace t p) (seq 0 (Z.to_nat (getNumTasks p))).

(** Modelled from the spec: [execute_expert] (sections 4.9 and 5), only
    declared in the header, with its three template flags.  Worker [tid]
    runs tree [tid] to completion; this is the run in which the workers
    take their turns one after the other.  Streaming stores and thread
    spawning change how the updates are carried out, not which. *)
Definition execute_expert (useStreamingStores spawnThreads betaIsZero : bool)
    (t : Transpose T) (h : heap T) : option (heap T) :=
  uss ← traces t;
  Some (run_updates betaIsZero (alpha_ t) (beta_ t) (mjoin uss) h).

(** Modelled from the spec: [execute] is only declared in the header.
    Section 9: it dispatches once, at entry, to the variant for β = 0 or
    to the general one. *)
Definition execute (t : Transpose T) (h : heap T) : option (heap T) :=
  execute_expert true true (el_is_zero (beta_ t)) t h.

(** Modelled from the spec: the runs of the executor under any schedule of
    the workers (section 5). *)
Definition execute_parallel (betaIsZero : bool) (t : Transpose T) (h h' : heap T) : Prop :=
  ∃ uss us, traces t = Some uss ∧ interleave uss us ∧
    h' = run_updates betaIsZero (alpha_ t) (beta_ t) us h.

(** Planning with the given choice and then running [execute] under some
    schedule takes the memory [h] to [h']. *)
Definition runs (loopOrder : list nat) (par : list Z) (t : Transpose T) (h h' : heap T) : Prop :=
  ∃ t', createPlan loopOrder par t = Ok t' ∧
        execute_parallel (el_is_zero (beta_ t')) t' h h'.

(** The object handed to the next execution: scalars and buffer pointers
    replaced through the setters. *)
Definition retarget (alpha beta : T) (A B : Z) (t : Transpose T) : Transpose T :=
  setAlpha alpha (setBeta beta (setInputPtr A (setOutputPtr B t))).

(** The loop nest of the stored shape in axis order, untiled and on one
    worker. *)
Definition axis_range (t : Transpose T) (k : nat) : Z * Z * Z * Z :=
  (0, atZ (sizeA_ t) k, atZ (lda_ t) k, atZ (ldb_ t) (atN (perm_ t) k)).

Definition reference_trace (t : Transpose T) : list (Z * Z) :=
  points (axis_range t <$> seq 0 (length (sizeA_ t))) (A_ t) (B_ t).
End Executor.

(** A buffer of [n] elements at address [base], read out of and laid
    into the memory. *)
Definition read_buffer {T} (h : heap T) (base n : Z) : list T :=
  h <$> seqZ base n.

Definition with_buffer {T} (base : Z) (elems : list T) (h : heap T) : heap T :=
  λ z, if decide (base ≤ z) then default (h z) (elems !! Z.to_nat (z - base))
       else h z.

(** ** Index tuples *)

Definition sumZ (l : list Z) : Z := foldr Z.add 0 l.

(** The offset of an index tuple under a list of strides. *)
Definition linear (idx ld : list Z) : Z := sumZ (zip_with Z.mul idx ld).

(** Position of [v] in [l]. *)
Fixpoint findPos (v : nat) (l : list nat) : nat :=
  match l with
  | [] => O
  | x :: l' => if decide (x = v) then O else S (findPos v l')
  end.

(** [permute π i] is the index tuple of B that the tuple [i] of A is sent
    to: axis [k] of A lands on axis [π[k]] of B. *)
Definition permute (π : list nat) (i : list Z) : list Z :=
  (λ j, atZ i (findPos j π)) <$> seq 0 (length π).

(** [i] lies in the box of the given sizes. *)
Definition in_box (i sizes : list Z) : Prop :=
  Forall2 (λ x s, 0 ≤ x < s) i sizes.

(** The index tuples of a list of ranges, in loop-nest order. *)
Fixpoint tuples (ranges : list (Z * Z * Z * Z)) : list (list Z) :=
  match ranges with
  | [] => [[]]
  | (first, len, _, _) :: ranges' =>
      x ← seqZ first len; cons x <$> tuples ranges'
  end.

(** ** Ranges of a worker's tree *)

Section Ranges.
Context {T : Type}.

(** The range of indices the node built for a level iterates over. *)
Definition level_range (t : Transpose T) (level : nat * Z * Z) : Z * Z * Z * Z :=
  let '(k, p, c) := level in
  (chunk_start (atZ (sizeA_ t) k) p c,
   chunk_end (atZ (sizeA_ t) k) p c - chunk_start (atZ (sizeA_ t) k) p c,
   atZ (lda_ t) k, atZ (ldb_ t) (atN (perm_ t) k)).
End Ranges.

(** No address that is read is also written. *)
Definition reads_apart (us : list (Z * Z)) : Prop :=
  ∀ a b, a ∈ us.*1 → b ∈ us.*2 → a ≠ b.

(** [xs] picks one index from every range. *)
Definition in_ranges (xs : list Z) (R : list (Z * Z * Z * Z)) : Prop :=
  Forall2 (λ x r, r.1.1.1 ≤ x < r.1.1.1 + r.1.1.2) xs R.

(** ** Valid shapes *)

(** The logical sizes of B: axis [π[k]] of B has the size of axis [k] of A. *)
Definition sizeB (sh : shape) : list Z := permute (sh_perm sh) (sh_size sh).

(** The four arrays have one entry per axis, the permutation is one of the
    axes, and no size is negative. *)
Definition wf_shape (sh : shape) : Prop :=
  length (sh_perm sh) = rank sh ∧
  length (sh_outerA sh) = rank sh ∧
  length (sh_outerB sh) = rank sh ∧
  sh_perm sh ≡ₚ seq 0 (rank sh) ∧
  Forall (λ s, 0 ≤ s) (sh_size sh).

(** Section 3, invariants: outer sizes are at least the logical sizes, for
    A and for B. *)
Definition valid_shape (sh : shape) : Prop :=
  wf_shape sh ∧
  Forall2 Z.le (sh_size sh) (sh_outerA sh) ∧
  Forall2 Z.le (sizeB sh) (sh_outerB sh).

(** The padded extents of A and B do not overlap. *)
Definition separate_buffers (A B : Z) (sh : shape) : Prop :=
  A + product (sh_outerA sh) ≤ B ∨ B + product (sh_outerB sh) ≤ A.

(** ** Inputs of the constructor *)

(** The four arrays hold [d] entries each. *)
Definition arrays_of_length (d : nat) (sizeA perm outerSizeA outerSizeB : list Z) : Prop :=
  length sizeA = d ∧ length perm = d ∧
  length outerSizeA = d ∧ length outerSizeB = d.

(** The arrays hold [dim] entries and no size is negative. *)
Definition well_formed_input (sizeA perm outerSizeA outerSizeB : list Z) (dim : Z) : Prop :=
  arrays_of_length (Z.to_nat dim) sizeA perm outerSizeA outerSizeB ∧
  Forall (λ s, 0 ≤ s) sizeA.


(** Integers with exact arithmetic, standing in for an element type of
    eight bytes. *)
#[export] Instance exact_elements : ElementTraits Z :=
  {| el_type := Double; el_add := Z.add; el_mul := Z.mul;
     el_is_zero := Z.eqb 0 |}.

(** [double]: IEEE 754 binary64 with its rounded addition and
    multiplication; [beta == 0] holds for both zeros. *)
#[export] Instance ieee_double : ElementTraits float :=
  {| el_type := Double; el_add := PrimFloat.add; el_mul := PrimFloat.mul;
     el_is_zero := λ x, PrimFloat.eqb x 0%float |}.

(** ** The second accessor of Plan *)

(** [ComputeNode* getRootNode(int threadId) const]: the same element as
    [getRootNode_const], handed out for writing. *)
Definition getRootNode (p : Plan) (threadId : Z) : option ComputeNode :=
  if decide (0 ≤ threadId) then rootNodes_ p !! Z.to_nat threadId else None.

(** ** Objects in the free store *)

(** Addresses handed out by [new] and [new[]]. *)
Definition ptr : Type := positive.

(** A [ComputeNode] object as it lies in memory: the members of
    [ComputeNode], with [next] held as an address ([None] is [nullptr]). *)
Record ComputeNode_obj : Type := mkComputeNode_obj {
  obj_start : Z;
  obj_end : Z;
  obj_inc : Z;
  obj_lda : Z;
  obj_ldb : Z;
  obj_next : option ptr
}.

(** The free store: the objects created by [new ComputeNode] and the
    arrays created by [new ComputeNode[n]] whose lifetime has not ended. *)
Record free_store : Type := mkFreeStore {
  live_nodes : gmap ptr ComputeNode_obj;
  live_arrays : gmap ptr (list ComputeNode_obj)
}.

(** [ComputeNode()] for an object in memory. *)
Definition ComputeNode_obj_ctor (w : N) : ComputeNode_obj :=
  {| obj_start := to_size_t w (-1);
     obj_end := to_size_t w (-1);
     obj_inc := to_size_t w (-1);
     obj_lda := to_size_t w (-1);
     obj_ldb := to_size_t w (-1);
     obj_next := None |}.

(** [~ComputeNode() { if ( next != nullptr ) delete next; }], given what
    [delete] does to a node pointer. *)
Definition ComputeNode_dtor
    (delete_ : ptr → gmap ptr ComputeNode_obj → option (gmap ptr ComputeNode_obj))
    (this : ComputeNode_obj) (nodes : gmap ptr ComputeNode_obj) :
    option (gmap ptr ComputeNode_obj) :=
  match obj_next this with
  | Some q => delete_ q nodes
  | None => Some nodes
  end.

(** [delete p] for a non-null [ComputeNode* p]: [p] has to point to a
    live object created by [new]; the object's lifetime ends as its
    destructor starts, the destructor runs, and the storage is released.
    [None] is undefined behaviour (a dangling pointer, or a second
    [delete] of the same object).  [fuel] bounds the depth of nested
    destructor calls. *)
Fixpoint delete_ComputeNode (fuel : nat) (p : ptr)
    (nodes : gmap ptr ComputeNode_obj) : option (gmap ptr ComputeNode_obj) :=
  match fuel with
  | O => None
  | S fuel =>
      match nodes !! p with
      | Some this => ComputeNode_dtor (delete_ComputeNode fuel) this (delete p nodes)
      | None => None
      end
  end.

(** [delete p], with as much fuel as there are live objects: every nested
    call ends the lifetime of one more of them. *)
Definition delete_node (p : ptr) (nodes : gmap ptr ComputeNode_obj) :
    option (gmap ptr ComputeNode_obj) :=
  delete_ComputeNode (size nodes) p nodes.

(** The destructor of a node that is not itself in the free store (an
    element of an array). *)
Definition destroy_node (this : ComputeNode_obj) (nodes : gmap ptr ComputeNode_obj) :
    option (gmap ptr ComputeNode_obj) :=
  ComputeNode_dtor delete_node this nodes.

(** The elements of an array are destroyed in the reverse order of their
    construction: the last one first. *)
Definition destroy_elements (cells : list ComputeNode_obj)
    (nodes : gmap ptr ComputeNode_obj) : option (gmap ptr ComputeNode_obj) :=
  foldr (λ this acc, acc ≫= destroy_node this) (Some nodes) cells.

(** [new ComputeNode[n]] in the free store: a negative [n] converts to a
    count no allocation can serve and the expression ends in
    [std::bad_alloc]; otherwise an address that is not in use holds [n]
    default-constructed nodes.  Memory is taken to suffice. *)
Definition new_ComputeNode_array_obj (w : N) (n : Z) (s : free_store) :
    outcome (ptr * free_store) :=
  if decide (n < 0) then Throw std_bad_alloc
  else
    let a := fresh (dom (live_arrays s)) in
    Ok (a, {| live_nodes := live_nodes s;
              live_arrays := <[a := replicate (Z.to_nat n) (ComputeNode_obj_ctor w)]>
                               (live_arrays s) |}).

(** [delete[] a] for a non-null [ComputeNode* a]: [a] has to be a live
    array created by [new[]]; its elements are destroyed, then the
    storage is released. *)
Definition delete_ComputeNode_array (a : ptr) (s : free_store) : option free_store :=
  match live_arrays s !! a with
  | Some cells =>
      match destroy_elements cells (live_nodes s) with
      | Some nodes => Some {| live_nodes := nodes; live_arrays := delete a (live_arrays s) |}
      | None => None
      end
  | None => None
  end.

(** A [Plan] object in memory: [rootNodes_] is the address of the array
    ([None] is [nullptr]). *)
Record Plan_obj : Type := mkPlan_obj {
  obj_numTasks_ : Z;
  obj_loopOrder_ : list Z;
  obj_numThreadsAtLoop_ : list Z;
  obj_rootNodes_ : option ptr
}.

(** [Plan() : rootNodes_(nullptr), numTasks_(0) { }] *)
Definition Plan_obj_default : Plan_obj :=
  {| obj_numTasks_ := 0; obj_loopOrder_ := []; obj_numThreadsAtLoop_ := [];
     obj_rootNodes_ := None |}.

(** [Plan(std::vector<int> loopOrder, std::vector<int> numThreadsAtLoop)]
    as it acts on the free store. *)
Definition Plan_obj_ctor (w : N) (loopOrder numThreadsAtLoop : list Z)
    (s : free_store) : outcome (Plan_obj * free_store) :=
  let numTasks := fold_left int_mul numThreadsAtLoop 1 in
  outcome_bind (new_ComputeNode_array_obj w numTasks s) (λ r,
    Ok ({| obj_numTasks_ := numTasks;
           obj_loopOrder_ := loopOrder;
           obj_numThreadsAtLoop_ := numThreadsAtLoop;
           obj_rootNodes_ := Some r.1 |}, r.2)).

(** [~Plan() { if ( rootNodes_ != nullptr ) delete[] rootNodes_; }] *)
Definition Plan_dtor (this : Plan_obj) (s : free_store) : option free_store :=
  match obj_rootNodes_ this with
  | Some a => delete_ComputeNode_array a s
  | None => Some s
  end.

(** The nodes reached from a pointer by following [next] down to
    [nullptr], all of them live. *)
Inductive chain (nodes : gmap ptr ComputeNode_obj) : option ptr → list ptr → Prop :=
  | chain_null : chain nodes None []
  | chain_link p this l :
      nodes !! p = Some this →
      chain nodes (obj_next this) l →
      chain nodes (Some p) (p :: l).

(** The store once the objects at the addresses [l] are gone. *)
Definition release (l : list ptr) (nodes : gmap ptr ComputeNode_obj) :
    gmap ptr ComputeNode_obj :=
  foldr delete nodes l.

(** A node in memory holds the value [n]: equal members, and the
    successor, if any, is a live object that holds the successor of [n]. *)
Fixpoint represents (nodes : gmap ptr ComputeNode_obj) (this : ComputeNode_obj)
    (n : ComputeNode) : Prop :=
  obj_start this = start n ∧ obj_end this = end_ n ∧ obj_inc this = inc n ∧
  obj_lda this = lda n ∧ obj_ldb this = ldb n ∧
  match next n, obj_next this with
  | None, None => True
  | Some n', Some q => ∃ this', nodes !! q = Some this' ∧ represents nodes this' n'
  | _, _ => False
  end.

(** A plan in memory holds the value [p]. *)
Definition Plan_represents (s : free_store) (this : Plan_obj) (p : Plan) : Prop :=
  obj_numTasks_ this = numTasks_ p ∧
  obj_loopOrder_ this = loopOrder_ p ∧
  obj_numThreadsAtLoop_ this = numThreadsAtLoop_ p ∧
  match obj_rootNodes_ this with
  | Some a => ∃ cells, live_arrays s !! a = Some cells ∧
                Forall2 (represents (live_nodes s)) cells (rootNodes_ p)
  | None => rootNodes_ p = []
  end.

(** The number of nodes that hang below a node. *)
Fixpoint successors (n : ComputeNode) : nat :=
  match next n with
  | Some n' => S (successors n')
  | None => 0%nat
  end.

(** The trees below the elements of an array: one chain per element, no
    node in two of them. *)
Definition separate_chains (nodes : gmap ptr ComputeNode_obj)
    (cells : list ComputeNode_obj) (ls : list (list ptr)) : Prop :=
  Forall2 (λ this l, chain nodes (obj_next this) l) cells ls ∧ NoDup (concat ls).

(** A store for examples: the chain 1 → 2, the single nodes 3 and 4, and at
    address 1 an array of two root nodes that head the chain and node 3. *)
Definition example_node (next : option ptr) : ComputeNode_obj :=
  {| obj_start := 0; obj_end := 4; obj_inc := 1; obj_lda := 1; obj_ldb := 4;
     obj_next := next |}.

Definition example_store : free_store :=
  {| live_nodes := <[1%positive := example_node (Some 2%positive)]>
                     (<[2%positive := example_node None]>
                     (<[3%positive := example_node None]>
                     (<[4%positive := example_node None]> ∅)));
     live_arrays := <[1%positive := [example_node (Some 1%positive);
                                     example_node (Some 3%positive)]]> ∅ |}.

(** * Properties *)

(** ** Machine integers *)

Lemma wrap_int_range z : INT_MIN ≤ wrap_int z ≤ INT_MAX.
Proof.
  unfold wrap_int, INT_MIN, INT_MAX.
  pose proof (Z.mod_pos_bound (z + 2 ^ 31) (2 ^ 32) ltac:(lia)). lia.
Qed.

Lemma wrap_int_congr z : (wrap_int z - z) mod 2 ^ 32 = 0.
Proof.
  unfold wrap_int.
  pose proof (Z.div_mod (z + 2 ^ 31) (2 ^ 32) ltac:(lia)) as Hd.
  replace ((z + 2 ^ 31) mod 2 ^ 32 - 2 ^ 31 - z)
    with ((- ((z + 2 ^ 31) / 2 ^ 32)) * 2 ^ 32) by lia.
  apply Z.mod_mul. lia.
Qed.

Lemma wrap_int_id z : INT_MIN ≤ z ≤ INT_MAX → wrap_int z = z.
Proof.
  unfold wrap_int, INT_MIN, INT_MAX. intros Hz.
  rewrite Z.mod_small by lia. lia.
Qed.

Lemma fold_int_mul_congr l acc :
  (fold_left int_mul l acc - acc * product l) mod 2 ^ 32 = 0.
Proof.
  revert acc. induction l as [|x l IH]; intros acc; simpl.
  - replace (acc - acc * 1) with 0 by lia. done.
  - specialize (IH (int_mul acc x)).
    pose proof (wrap_int_congr (acc * x)) as Hw. fold (int_mul acc x) in Hw.
    apply Z.mod_divide in IH; [|lia]. apply Z.mod_divide in Hw; [|lia].
    apply Z.mod_divide; [lia|].
    destruct IH as [a Ha]. destruct Hw as [b Hb].
    exists (a + b * product l). lia.
Qed.

Lemma fold_int_mul_range l :
  INT_MIN ≤ fold_left int_mul l 1 ≤ INT_MAX.
Proof.
  destruct l as [|x l _] using rev_ind.
  - simpl. unfold INT_MIN, INT_MAX. lia.
  - rewrite fold_left_app. simpl. apply wrap_int_range.
Qed.

Lemma fold_int_mul_product l :
  INT_MIN ≤ product l ≤ INT_MAX → fold_left int_mul l 1 = product l.
Proof.
  intros Hp. pose proof (fold_int_mul_range l) as Hr.
  pose proof (fold_int_mul_congr l 1) as Hc.
  apply Z.mod_divide in Hc; [|lia]. destruct Hc as [a Ha].
  unfold INT_MIN, INT_MAX in *. lia.
Qed.

(** ** C7: the tile edges *)

(** Claim C7.  For each of the four element types and both register
    widths, [blocking_micro_] is the lane count (register bits over
    8·sizeof) and [blocking_] is four times that; with 256-bit registers
    this gives 8 and 32 for float, 4 and 16 for double. *)
Theorem blocking_is_lane_count (a : arch) (t : floatType) :
  blocking_micro_ a t = lanes a t ∧
  blocking_ a t = 4 * lanes a t ∧
  blocking_micro_ AVX Float = 8 ∧ blocking_ AVX Float = 32 ∧
  blocking_micro_ AVX Double = 4 ∧ blocking_ AVX Double = 16.
Proof.
  assert (blocking_micro_ a t = lanes a t) as Hm.
  { unfold blocking_micro_, lanes. rewrite Z.div_div; [done|lia|].
    destruct t; simpl; lia. }
  repeat split; try reflexivity; [done|].
  unfold blocking_. rewrite Hm. lia.
Qed.

Lemma blocking_pos (a : arch) (t : floatType) : 1 ≤ blocking_ a t.
Proof. destruct a, t; vm_compute; discriminate. Qed.

(** ** C10: the default node *)

Lemma to_size_t_minus_one (w : N) : to_size_t w (-1) = 2 ^ Z.of_N w - 1.
Proof.
  unfold to_size_t.
  assert (0 < 2 ^ Z.of_N w) as Hp by (apply Z.pow_pos_nonneg; lia).
  replace (-1) with (2 ^ Z.of_N w - 1 + (-1) * 2 ^ Z.of_N w) at 1 by lia.
  rewrite Z.mod_add by lia. apply Z.mod_small. lia.
Qed.

Lemma for_loop_done fuel i e step : ¬ i < e → for_loop fuel i e step = Some [].
Proof. intros Hi. destruct fuel; simpl; by rewrite decide_False. Qed.

(** Claim C10.  A default-constructed node has no successor and all five
    [size_t] members equal to 2^w − 1, so [start < end] fails, its loop
    [for (i = start; i < end; i += inc)] runs zero times, and a walker
    that loops over such a node performs no update. *)
Theorem default_node_is_empty_loop (w : N) :
  let n := ComputeNode_ctor w in
  next n = None ∧
  start n = 2 ^ Z.of_N w - 1 ∧ end_ n = 2 ^ Z.of_N w - 1 ∧
  inc n = 2 ^ Z.of_N w - 1 ∧ lda n = 2 ^ Z.of_N w - 1 ∧
  ldb n = 2 ^ Z.of_N w - 1 ∧
  ¬ start n < end_ n ∧
  loop_iterations (start n) (end_ n) (inc n) = Some [] ∧
  ∀ nx box pa pb,
    walk (mkComputeNode (start n) (end_ n) (inc n) (lda n) (ldb n) (Some nx))
      box pa pb = Some [].
Proof.
  simpl. rewrite to_size_t_minus_one.
  repeat split; try lia.
  - unfold loop_iterations. apply for_loop_done. lia.
  - intros nx box pa pb. simpl. unfold loop_iterations.
    rewrite for_loop_done by lia. done.
Qed.

(** ** C6: the plan constructor *)

Lemma Plan_ctor_product (w : N) (loopOrder numThreadsAtLoop : list Z) :
  0 ≤ product numThreadsAtLoop ≤ INT_MAX →
  Plan_ctor w loopOrder numThreadsAtLoop =
  Ok {| numTasks_ := product numThreadsAtLoop;
        loopOrder_ := loopOrder;
        numThreadsAtLoop_ := numThreadsAtLoop;
        rootNodes_ := replicate (Z.to_nat (product numThreadsAtLoop))
                        (ComputeNode_ctor w) |}.
Proof.
  intros Hp. unfold Plan_ctor, new_ComputeNode_array.
  rewrite fold_int_mul_product by (unfold INT_MIN; lia).
  by rewrite decide_False by lia.
Qed.

(** Claim C6, as far as it holds: when the product of the parallelism
    vector is a non-negative [int], the constructor stores that product in
    [numTasks_], allocates that many default root nodes and [getNumTasks]
    returns it; loop order and vector are stored as given. *)
Theorem Plan_ctor_numTasks (w : N) (loopOrder numThreadsAtLoop : list Z) :
  0 ≤ product numThreadsAtLoop ≤ INT_MAX →
  ∃ p, Plan_ctor w loopOrder numThreadsAtLoop = Ok p ∧
    numTasks_ p = product numThreadsAtLoop ∧
    getNumTasks p = product numThreadsAtLoop ∧
    Z.of_nat (length (rootNodes_ p)) = numTasks_ p ∧
    Forall (λ n, n = ComputeNode_ctor w) (rootNodes_ p) ∧
    loopOrder_ p = loopOrder ∧ numThreadsAtLoop_ p = numThreadsAtLoop.
Proof.
  intros Hp. rewrite Plan_ctor_product by done.
  eexists. split; [done|]. simpl. repeat split.
  - rewrite length_replicate. lia.
  - by apply Forall_replicate.
Qed.

Lemma Plan_ctor_numTasks_witness :
  ∃ p, Plan_ctor 64 [1; 0] [2; 3] = Ok p ∧
    numTasks_ p = 6 ∧ getNumTasks p = 6 ∧
    Z.of_nat (length (rootNodes_ p)) = numTasks_ p ∧
    Forall (λ n, n = ComputeNode_ctor 64) (rootNodes_ p) ∧
    loopOrder_ p = [1; 0] ∧ numThreadsAtLoop_ p = [2; 3].
Proof.
  apply (Plan_ctor_numTasks 64 [1; 0] [2; 3]). vm_compute. split; discriminate.
Defined.

(** The claim does not hold for every vector.  For [(-1)] the product is
    −1 and the array allocation raises [std::bad_alloc], so no plan
    exists; for [(65536, 65536)] the product 2^32 wraps to 0 in
    [int], so the plan has no task at all. *)
Lemma Plan_ctor_product_fails :
  (¬ ∃ p, Plan_ctor 64 [0] [-1] = Ok p ∧
      numTasks_ p = product [-1] ∧
      Z.of_nat (length (rootNodes_ p)) = numTasks_ p ∧
      getNumTasks p = product [-1]) ∧
  (¬ ∃ p, Plan_ctor 64 [0; 1] [65536; 65536] = Ok p ∧
      numTasks_ p = product [65536; 65536] ∧
      Z.of_nat (length (rootNodes_ p)) = numTasks_ p ∧
      getNumTasks p = product [65536; 65536]).
Proof.
  split.
  - intros (p & Hp & _). vm_compute in Hp. discriminate.
  - intros (p & Hp & Hn & _). vm_compute in Hp. injection Hp as <-.
    vm_compute in Hn. discriminate.
Qed.

(** ** C8: the setters *)

(** Claim C8.  Each of [setAlpha], [setBeta], [setInputPtr],
    [setOutputPtr] and [setNumThreads] stores its argument in its own
    member and leaves every other member as it was; in particular the
    master plan, [dim_], the sizes, the permutation and the leading
    dimensions survive, so the planned object can be run again with other
    buffers and scalars. *)
Theorem setters_change_own_field {T : Type} (t : Transpose T)
    (alpha beta : T) (A B numThreads : Z) :
  (alpha_ (setAlpha alpha t) = alpha ∧ beta_ (setAlpha alpha t) = beta_ t ∧
   A_ (setAlpha alpha t) = A_ t ∧ B_ (setAlpha alpha t) = B_ t ∧
   numThreads_ (setAlpha alpha t) = numThreads_ t ∧
   same_shape_and_plan t (setAlpha alpha t)) ∧
  (beta_ (setBeta beta t) = beta ∧ alpha_ (setBeta beta t) = alpha_ t ∧
   A_ (setBeta beta t) = A_ t ∧ B_ (setBeta beta t) = B_ t ∧
   numThreads_ (setBeta beta t) = numThreads_ t ∧
   same_shape_and_plan t (setBeta beta t)) ∧
  (A_ (setInputPtr A t) = A ∧ alpha_ (setInputPtr A t) = alpha_ t ∧
   beta_ (setInputPtr A t) = beta_ t ∧ B_ (setInputPtr A t) = B_ t ∧
   numThreads_ (setInputPtr A t) = numThreads_ t ∧
   same_shape_and_plan t (setInputPtr A t)) ∧
  (B_ (setOutputPtr B t) = B ∧ alpha_ (setOutputPtr B t) = alpha_ t ∧
   beta_ (setOutputPtr B t) = beta_ t ∧ A_ (setOutputPtr B t) = A_ t ∧
   numThreads_ (setOutputPtr B t) = numThreads_ t ∧
   same_shape_and_plan t (setOutputPtr B t)) ∧
  (numThreads_ (setNumThreads numThreads t) = numThreads ∧
   alpha_ (setNumThreads numThreads t) = alpha_ t ∧
   beta_ (setNumThreads numThreads t) = beta_ t ∧
   A_ (setNumThreads numThreads t) = A_ t ∧
   B_ (setNumThreads numThreads t) = B_ t ∧
   same_shape_and_plan t (setNumThreads numThreads t)).
Proof. unfold same_shape_and_plan. simpl. tauto. Qed.

(** ** C9: the copy constructor *)

Lemma Transpose_copy_members {T : Type} (t : Transpose T) :
  A_ (Transpose_copy t) = A_ t ∧ B_ (Transpose_copy t) = B_ t ∧
  alpha_ (Transpose_copy t) = alpha_ t ∧ beta_ (Transpose_copy t) = beta_ t ∧
  numThreads_ (Transpose_copy t) = numThreads_ t ∧
  masterPlan_ (Transpose_copy t) = masterPlan_ t ∧
  dim_ (Transpose_copy t) = dim_ t ∧ sizeA_ (Transpose_copy t) = sizeA_ t ∧
  perm_ (Transpose_copy t) = perm_ t ∧
  outerSizeA_ (Transpose_copy t) = outerSizeA_ t ∧
  outerSizeB_ (Transpose_copy t) = outerSizeB_ t ∧
  lda_ (Transpose_copy t) = lda_ t ∧ ldb_ (Transpose_copy t) = ldb_ t ∧
  selectionMethod_ (Transpose_copy t) = selectionMethod_ t ∧
  selectedParallelStrategyId_ (Transpose_copy t) = selectedParallelStrategyId_ t ∧
  blocking_constStride1_ (Transpose_copy t) = None.
Proof. simpl. tauto. Qed.

(** Claim C9 fails on the code.  The object the primary constructor builds
    for sizes (3,2) and permutation (1,0) has [blocking_constStride1_]
    initialised to 1; in its copy that member is not initialised at all,
    so the copy does not agree with the original on it. *)
Theorem copy_leaves_blocking_constStride1_uninitialised :
  match Transpose_ctor [3; 2] [1; 0] [3; 2] [2; 3] 2 0 1 100 0 ESTIMATE 1 with
  | Ok t =>
      blocking_constStride1_ t = Some 1 ∧
      blocking_constStride1_ (Transpose_copy t) = None ∧
      Transpose_copy t ≠ t
  | Throw _ => False
  end.
Proof. vm_compute. repeat split; discriminate. Qed.

(** ** Lists, binds and permutations *)

Lemma bind_nil_const {X Y : Type} (l : list X) : l ≫= (λ _, @nil Y) = [].
Proof. induction l as [|x l IH]; [done|]. by rewrite bind_cons, IH. Qed.

Lemma bind_perm_ext {X Y : Type} (f g : X → list Y) (l : list X) :
  (∀ x, x ∈ l → f x ≡ₚ g x) → l ≫= f ≡ₚ l ≫= g.
Proof.
  induction l as [|x l IH]; intros Hfg; [done|].
  rewrite !bind_cons. f_equiv.
  - apply Hfg. left.
  - apply IH. intros y Hy. apply Hfg. by right.
Qed.

Lemma bind_app_perm {X Y : Type} (f g : X → list Y) (l : list X) :
  l ≫= (λ x, f x ++ g x) ≡ₚ (l ≫= f) ++ (l ≫= g).
Proof.
  induction l as [|x l IH]; [done|].
  rewrite !bind_cons, IH.
  rewrite <- !(assoc_L (++)). f_equiv.
  rewrite !(assoc_L (++)). f_equiv. apply Permutation_app_comm.
Qed.

Lemma bind_comm_perm {X Y W : Type} (f : X → Y → list W) (l1 : list X) (l2 : list Y) :
  l1 ≫= (λ a, l2 ≫= f a) ≡ₚ l2 ≫= (λ b, l1 ≫= (λ a, f a b)).
Proof.
  induction l1 as [|a l1 IH].
  - simpl. by rewrite bind_nil_const.
  - rewrite bind_cons, IH.
    rewrite <- bind_app_perm. apply bind_perm_ext. intros b _.
    by rewrite bind_cons.
Qed.

Lemma bind_assoc {X Y W : Type} (f : X → list Y) (g : Y → list W) (l : list X) :
  (l ≫= f) ≫= g = l ≫= (λ x, f x ≫= g).
Proof.
  induction l as [|x l IH]; [done|].
  by rewrite !bind_cons, bind_app, IH.
Qed.

Lemma bind_ext_in {X Y : Type} (f g : X → list Y) (l : list X) :
  (∀ x, x ∈ l → f x = g x) → l ≫= f = l ≫= g.
Proof.
  induction l as [|x l IH]; intros Hfg; [done|].
  rewrite !bind_cons. f_equal.
  - apply Hfg. left.
  - apply IH. intros y Hy. apply Hfg. by right.
Qed.

Lemma fmap_bind_list {X Y W : Type} (f : Y → W) (g : X → list Y) (l : list X) :
  f <$> (l ≫= g) = l ≫= (λ x, f <$> g x).
Proof.
  induction l as [|x l IH]; [done|].
  by rewrite !bind_cons, fmap_app, IH.
Qed.

Lemma sumZ_app l1 l2 : sumZ (l1 ++ l2) = sumZ l1 + sumZ l2.
Proof. induction l1 as [|x l1 IH]; simpl; lia. Qed.

Lemma sumZ_perm l1 l2 : l1 ≡ₚ l2 → sumZ l1 = sumZ l2.
Proof. induction 1; simpl; lia. Qed.

(** ** The loop nest [points] *)

Lemma points_app R1 R2 pa pb :
  points (R1 ++ R2) pa pb = points R1 pa pb ≫= (λ ab, points R2 ab.1 ab.2).
Proof.
  revert pa pb. induction R1 as [|[[[first len] la] lb] R1 IH]; intros pa pb; simpl.
  - by rewrite app_nil_r.
  - rewrite bind_assoc. apply bind_ext_in. intros x _. apply IH.
Qed.

Lemma points_shift R pa pb da db :
  points R (pa + da) (pb + db) = (λ ab, (ab.1 + da, ab.2 + db)) <$> points R pa pb.
Proof.
  revert pa pb. induction R as [|[[[first len] la] lb] R IH]; intros pa pb; simpl.
  - done.
  - rewrite fmap_bind_list. apply bind_ext_in. intros x _.
    rewrite <- IH. f_equal; lia.
Qed.

Lemma points_perm R R' pa pb : R ≡ₚ R' → points R pa pb ≡ₚ points R' pa pb.
Proof.
  intros HR. revert pa pb.
  induction HR as [|[[[first len] la] lb] R R' _ IH
                   |[[[f1 n1] la1] lb1] [[[f2 n2] la2] lb2] R
                   |R R' R'' _ IH1 _ IH2]; intros pa pb; simpl.
  - done.
  - apply bind_perm_ext. intros x _. apply IH.
  - rewrite bind_comm_perm. apply bind_perm_ext. intros x _.
    apply bind_perm_ext. intros y _.
    f_equiv; lia.
  - by rewrite IH1.
Qed.

(** A range cut into parts is visited part by part, wherever the range
    sits in the nest. *)
Lemma points_split (parts : list (Z * Z)) first len la lb R1 R2 pa pb :
  parts ≫= (λ p, seqZ p.1 p.2) ≡ₚ seqZ first len →
  parts ≫= (λ p, points (R1 ++ (p.1, p.2, la, lb) :: R2) pa pb)
    ≡ₚ points (R1 ++ (first, len, la, lb) :: R2) pa pb.
Proof.
  intros Hparts.
  rewrite points_app.
  rewrite (bind_ext_in _ (λ p, points R1 pa pb ≫=
             (λ ab, points ((p.1, p.2, la, lb) :: R2) ab.1 ab.2)))
    by (intros p _; apply points_app).
  rewrite bind_comm_perm. apply bind_perm_ext. intros [a b] _. simpl.
  rewrite <- bind_assoc. by rewrite Hparts.
Qed.

(** Advancing the pointers by [x] strides of a range that starts at 0 is
    the same as starting the range at [x]. *)
Lemma points_offset R1 R2 x len la lb pa pb :
  points (R1 ++ (0, len, la, lb) :: R2) (pa + x * la) (pb + x * lb)
  = points (R1 ++ (x, len, la, lb) :: R2) pa pb.
Proof.
  rewrite !points_app, points_shift, list_fmap_bind.
  apply bind_ext_in. intros [a b] _. simpl.
  replace (seqZ x len) with (Z.add x <$> seqZ 0 len)
    by (rewrite fmap_add_seqZ; f_equal; lia).
  rewrite list_fmap_bind.
  apply bind_ext_in. intros y _. simpl. f_equal; lia.
Qed.

(** ** Loops and tiles *)

Lemma for_loop_tiles step e :
  0 < step → ∀ fuel i, e - i ≤ Z.of_nat fuel →
  ∃ L, for_loop fuel i e step = Some L ∧
       L ≫= (λ x, seqZ x (Z.min step (e - x))) = seqZ i (e - i).
Proof.
  intros Hstep fuel. induction fuel as [|fuel IH]; intros i Hfuel.
  - exists []. rewrite for_loop_done by lia. by rewrite seqZ_nil by lia.
  - simpl. destruct (decide (i < e)) as [Hi|Hi].
    + destruct (IH (i + step) ltac:(lia)) as (L & -> & HL).
      exists (i :: L). split; [done|].
      rewrite bind_cons, HL.
      destruct (decide (step ≤ e - i)).
      * rewrite Z.min_l by lia.
        rewrite <- seqZ_app by lia. f_equal. lia.
      * rewrite Z.min_r by lia.
        by rewrite (seqZ_nil (i + step)), app_nil_r by lia.
    + exists []. by rewrite seqZ_nil by lia.
Qed.

Lemma loop_iterations_tiles s e step :
  0 < step →
  ∃ L, loop_iterations s e step = Some L ∧
       L ≫= (λ x, seqZ x (Z.min step (e - x))) = seqZ s (e - s).
Proof. intros Hstep. apply for_loop_tiles; [done|lia]. Qed.

Lemma mapM_bind_perm {X Y : Type} (f : X → option (list Y)) (g : X → list Y) (l : list X) :
  (∀ x, x ∈ l → ∃ us, f x = Some us ∧ us ≡ₚ g x) →
  ∃ uss, mapM f l = Some uss ∧ mjoin uss ≡ₚ l ≫= g.
Proof.
  induction l as [|x l IH]; intros Hf.
  - by exists [].
  - destruct (Hf x) as (us & Hus & Hperm); [left|].
    destruct IH as (uss & Huss & Hperms).
    { intros y Hy. apply Hf. by right. }
    exists (us :: uss). split.
    + simpl. rewrite Hus. simpl. by rewrite Huss.
    + rewrite bind_cons. simpl. by f_equiv.
Qed.

(** ** The walker visits the ranges of its tree *)

Section Walker.
Context {T : Type} `{ElementTraits T}.
Variables (hw : arch) (w : N).

Lemma getIncrement_pos (t : Transpose T) k : 0 < getIncrement hw t k.
Proof.
  unfold getIncrement. pose proof (blocking_pos hw el_type).
  repeat case_decide; lia.
Qed.

Lemma kernel_points box pa pb : kernel box pa pb = points (box_range <$> box) pa pb.
Proof. done. Qed.

(** The updates of a tree are, up to their order, those of the loop nest
    over the tile in progress followed by the ranges of its levels. *)
Lemma walk_build_tree (t : Transpose T) levels : ∀ box pa pb,
  ∃ us, walk (build_tree hw w t levels) box pa pb = Some us ∧
        us ≡ₚ points ((box_range <$> box) ++ (level_range t <$> levels)) pa pb.
Proof.
  induction levels as [|[[k p] c] levels IH]; intros box pa pb.
  - eexists. split; [done|]. simpl. by rewrite app_nil_r.
  - simpl.
    destruct (loop_iterations_tiles
                (chunk_start (atZ (sizeA_ t) k) p c)
                (chunk_end (atZ (sizeA_ t) k) p c)
                (getIncrement hw t k) (getIncrement_pos t k)) as (L & -> & HL).
    simpl.
    edestruct (mapM_bind_perm
      (λ x, walk (build_tree hw w t levels)
              (box ++ [(Z.min (getIncrement hw t k)
                          (chunk_end (atZ (sizeA_ t) k) p c - x),
                        atZ (lda_ t) k, atZ (ldb_ t) (atN (perm_ t) k))])
              (pa + x * atZ (lda_ t) k) (pb + x * atZ (ldb_ t) (atN (perm_ t) k)))
      (λ x, points ((box_range <$> box) ++
              (x, Z.min (getIncrement hw t k) (chunk_end (atZ (sizeA_ t) k) p c - x),
               atZ (lda_ t) k, atZ (ldb_ t) (atN (perm_ t) k))
              :: (level_range t <$> levels)) pa pb) L) as (uss & -> & Huss).
    { intros x _. edestruct IH as (us & -> & Hus). eexists. split; [done|].
      rewrite Hus, fmap_app, <- (assoc_L (++)). simpl.
      by rewrite points_offset. }
    eexists. split; [done|]. rewrite Huss.
    rewrite <- (points_split ((λ x, (x, Z.min (getIncrement hw t k)
                  (chunk_end (atZ (sizeA_ t) k) p c - x))) <$> L)).
    + by rewrite list_fmap_bind.
    + rewrite list_fmap_bind. simpl. by rewrite <- HL.
Qed.
End Walker.

(** ** The workers' chunks cover each axis *)

Lemma seqZ_0_of_nat n : seqZ 0 n = Z.of_nat <$> seq 0 (Z.to_nat n).
Proof. unfold seqZ. apply list_fmap_ext. intros i x _. lia. Qed.

Lemma seqZ_mul (p r : Z) :
  0 ≤ p → 0 ≤ r →
  seqZ 0 (p * r) = seqZ 0 p ≫= (λ c, (λ t, c * r + t) <$> seqZ 0 r).
Proof.
  intros Hp Hr. rewrite <- (Z2Nat.id p) by done.
  induction (Z.to_nat p) as [|n IH].
  - done.
  - rewrite seqZ_S, bind_app, <- IH, bind_singleton. simpl.
    replace (Z.of_nat (S n) * r) with (Z.of_nat n * r + r) by lia.
    rewrite seqZ_app by lia. f_equal.
    change (λ t, Z.of_nat n * r + t) with (Z.add (Z.of_nat n * r)).
    rewrite fmap_add_seqZ. f_equal; lia.
Qed.

Lemma chunks_cover S p :
  0 ≤ S → 1 ≤ p →
  seqZ 0 p ≫= (λ c, seqZ (chunk_start S p c) (chunk_end S p c - chunk_start S p c))
  = seqZ 0 S.
Proof.
  intros HS Hp. unfold chunk_start, chunk_end.
  set (q := (S + p - 1) / p).
  assert (0 ≤ q) as Hq by (apply Z.div_pos; lia).
  assert (S ≤ p * q) as Hpq.
  { pose proof (Z.div_mod (S + p - 1) p ltac:(lia)) as Hd. fold q in Hd.
    pose proof (Z.mod_pos_bound (S + p - 1) p ltac:(lia)). lia. }
  assert (∀ n : nat,
    seqZ 0 (Z.of_nat n) ≫= (λ c, seqZ (Z.min S (c * q))
                                   (Z.min S ((c + 1) * q) - Z.min S (c * q)))
    = seqZ 0 (Z.min S (Z.of_nat n * q))) as Hn.
  { induction n as [|n IH].
    - simpl. by rewrite Z.min_r by lia.
    - rewrite seqZ_S, bind_app, IH, bind_singleton. simpl.
      rewrite <- seqZ_app by nia. f_equal. lia. }
  specialize (Hn (Z.to_nat p)). rewrite Z2Nat.id in Hn by lia.
  rewrite Hn. f_equal. lia.
Qed.

Lemma product_ge_1 par : Forall (λ p, 1 ≤ p) par → 1 ≤ product par.
Proof. induction 1; simpl; nia. Qed.

Lemma decompose_cons c r t' p ps :
  r = product ps → 0 ≤ t' < r →
  decompose (c * r + t') (p :: ps) = c :: decompose t' ps.
Proof.
  intros -> Ht. simpl. f_equal.
  - rewrite Z.add_comm, Z.div_add by lia. rewrite Z.div_small by lia. lia.
  - f_equal. rewrite Z.add_comm, Z.mod_add by lia. apply Z.mod_small. lia.
Qed.

Section Tasks.
Context {T : Type} `{ElementTraits T}.
Variables (hw : arch) (w : N).

Lemma level_range_chunk (t : Transpose T) k p c :
  level_range t (k, p, c) =
  (chunk_start (atZ (sizeA_ t) k) p c,
   chunk_end (atZ (sizeA_ t) k) p c - chunk_start (atZ (sizeA_ t) k) p c,
   atZ (lda_ t) k, atZ (ldb_ t) (atN (perm_ t) k)).
Proof. done. Qed.

(** All workers together visit the whole range of every level. *)
Lemma tasks_cover (t : Transpose T) lo : ∀ par R0 pa pb,
  length par = length lo →
  Forall (λ p, 1 ≤ p) par →
  Forall (λ s, 0 ≤ s) (sizeA_ t) →
  seqZ 0 (product par) ≫=
    (λ tid, points (R0 ++ (level_range t <$> zip (zip lo par) (decompose tid par))) pa pb)
  ≡ₚ points (R0 ++ (axis_range t <$> lo)) pa pb.
Proof.
  induction lo as [|k lo IH]; intros [|p ps] R0 pa pb Hlen Hpar Hsize;
    simpl in Hlen; try discriminate.
  - simpl. by rewrite app_nil_r.
  - apply Forall_cons in Hpar as [Hp Hps].
    pose proof (product_ge_1 ps Hps) as Hr.
    change (product (p :: ps)) with (p * product ps).
    rewrite (fmap_cons (axis_range t)).
    rewrite seqZ_mul, bind_assoc by lia.
    rewrite (bind_perm_ext _ (λ c, points ((R0 ++ [level_range t (k, p, c)]) ++
                                      (axis_range t <$> lo)) pa pb)).
    + etrans; [|apply (points_split
        ((λ c, (chunk_start (atZ (sizeA_ t) k) p c,
                chunk_end (atZ (sizeA_ t) k) p c - chunk_start (atZ (sizeA_ t) k) p c))
           <$> seqZ 0 p) 0 (atZ (sizeA_ t) k) (atZ (lda_ t) k)
        (atZ (ldb_ t) (atN (perm_ t) k)) R0 (axis_range t <$> lo) pa pb)].
      * rewrite list_fmap_bind. apply bind_perm_ext. intros c _. simpl.
        by rewrite <- (assoc_L (++)).
      * rewrite list_fmap_bind. unfold compose. simpl.
        rewrite chunks_cover; [done| |done].
        unfold atZ. destruct (sizeA_ t !! k) as [s|] eqn:Hk; simpl; [|done].
        by eapply (Forall_lookup_1 _ _ _ _ Hsize).
    + intros c _. rewrite list_fmap_bind.
      rewrite <- (IH ps (R0 ++ [level_range t (k, p, c)]) pa pb) by (done || lia).
      apply bind_perm_ext. intros t' Ht'. unfold compose. cbv beta.
      apply elem_of_seqZ in Ht'.
      rewrite decompose_cons by (done || lia). simpl.
      by rewrite <- (assoc_L (++)).
Qed.
End Tasks.

(** ** A planned object's traces *)

Section Planned.
Context {T : Type} `{ElementTraits T}.
Variables (hw : arch) (w : N).

Lemma candidate_product (t : Transpose T) lo par :
  candidate t lo par → 1 ≤ product par ≤ INT_MAX.
Proof.
  intros (_ & _ & Hpar & Hle & Hmax). split; [by apply product_ge_1|lia].
Qed.

(** For a candidate the plan constructor succeeds and the plan has one
    tree per task. *)
Lemma createPlan_candidate (t : Transpose T) lo par :
  candidate t lo par →
  ∃ p, createPlan hw w lo par t = Ok (setMasterPlan (Some p) t) ∧
       getNumTasks p = product par ∧
       rootNodes_ p = (λ tid, task_tree hw w t lo par (Z.of_nat tid))
                        <$> seq 0 (Z.to_nat (product par)).
Proof.
  intros Hc. pose proof (candidate_product t lo par Hc) as Hp.
  unfold createPlan. rewrite Plan_ctor_product by lia. simpl.
  eexists. split; [done|]. split; [done|]. simpl.
  by rewrite length_replicate.
Qed.

(** The updates of all workers of an object that holds the plan are, up
    to their order, those of the loop nest in axis order, started at the
    object's own pointers. *)
Lemma planned_traces (t tp : Transpose T) lo par p :
  candidate t lo par →
  Forall (λ s, 0 ≤ s) (sizeA_ t) →
  getNumTasks p = product par →
  rootNodes_ p = (λ tid, task_tree hw w t lo par (Z.of_nat tid))
                   <$> seq 0 (Z.to_nat (product par)) →
  masterPlan_ tp = Some p →
  ∃ uss, traces tp = Some uss ∧
         mjoin uss ≡ₚ points (axis_range t <$> seq 0 (length (sizeA_ t)))
                        (A_ tp) (B_ tp).
Proof.
  intros Hc Hsize Hn Hroots Hplan. unfold traces. rewrite Hplan. simpl.
  rewrite Hn. destruct Hc as (Hlo & Hlen & Hpar & _).
  edestruct (mapM_bind_perm
    (task_trace tp p)
    (λ tid, points (level_range t <$>
                      zip (zip lo par) (decompose (Z.of_nat tid) par))
              (A_ tp) (B_ tp))
    (seq 0 (Z.to_nat (product par)))) as (uss & Huss & Hperm).
  { intros tid Htid. apply elem_of_seq in Htid.
    unfold task_trace, getRootNode_const.
    rewrite decide_True by lia. rewrite Nat2Z.id, Hroots.
    rewrite list_lookup_fmap, lookup_seq_lt by lia. simpl.
    destruct (walk_build_tree hw w t
                (zip (zip lo par) (decompose (Z.of_nat tid) par)) [] (A_ tp) (B_ tp))
      as (us & Hus & Hp).
    exists us. split; [done|]. by rewrite Hp. }
  exists uss. split; [done|]. rewrite Hperm.
  trans (points (axis_range t <$> lo) (A_ tp) (B_ tp));
    [|apply points_perm; by rewrite Hlo].
  rewrite <- (tasks_cover t lo par [] (A_ tp) (B_ tp)) by done.
  by rewrite seqZ_0_of_nat, list_fmap_bind.
Qed.
End Planned.

(** ** Running a sequence of updates *)

Section Updates.
Context {T : Type} `{ElementTraits T}.
Implicit Types (us : list (Z * Z)) (h : heap T) (bz : bool).

Lemma run_updates_other bz alpha beta us h z :
  z ∉ us.*2 → run_updates bz alpha beta us h z = h z.
Proof.
  revert h. induction us as [|[a b] us IH]; intros h Hz; [done|].
  simpl in *. apply not_elem_of_cons in Hz as [Hzb Hz].
  rewrite IH by done. unfold update, store. simpl. by rewrite decide_False.
Qed.

Lemma reads_apart_cons a b us : reads_apart ((a, b) :: us) → reads_apart us.
Proof.
  intros Hr a' b' Ha Hb. apply Hr; simpl; by right.
Qed.

Lemma run_updates_target bz alpha beta us h a b :
  NoDup us.*2 → reads_apart us → (a, b) ∈ us →
  run_updates bz alpha beta us h b = axpby bz alpha beta (h a) (h b).
Proof.
  revert h. induction us as [|[a0 b0] us IH]; intros h Hnd Hr Hab.
  - by apply elem_of_nil in Hab.
  - simpl in *. apply NoDup_cons in Hnd as [Hb0 Hnd].
    apply elem_of_cons in Hab as [Heq|Hin].
    + simplify_eq. rewrite run_updates_other by done.
      unfold update, store. simpl. by rewrite decide_True.
    + rewrite IH by eauto using reads_apart_cons.
      unfold update, store. simpl.
      rewrite !decide_False; [done| |].
      * intros ->. apply Hb0. apply list_elem_of_fmap. by exists (a, b0).
      * apply Hr; simpl; [right|left].
        apply list_elem_of_fmap. by exists (a, b).
Qed.

(** With distinct targets and no read of a written address, the order of
    the updates does not matter. *)
Lemma run_updates_perm bz alpha beta us us' h z :
  us ≡ₚ us' → NoDup us.*2 → reads_apart us →
  run_updates bz alpha beta us h z = run_updates bz alpha beta us' h z.
Proof.
  intros Hp Hnd Hr.
  assert (NoDup us'.*2) as Hnd' by (by rewrite <- Hp).
  assert (reads_apart us') as Hr'.
  { intros a b Ha Hb. apply Hr; by rewrite Hp. }
  destruct (decide (z ∈ us.*2)) as [Hz|Hz].
  - apply list_elem_of_fmap in Hz as ([a b] & -> & Hab). simpl.
    rewrite (run_updates_target _ _ _ us h a b) by done.
    rewrite (run_updates_target _ _ _ us' h a b); [done..|by rewrite <- Hp].
  - rewrite !run_updates_other; [done| |done]. by rewrite <- Hp.
Qed.
End Updates.

(** ** Schedules *)

Lemma mjoin_all_nil {X : Type} (uss : list (list X)) :
  Forall (λ us, us = []) uss → mjoin uss = [].
Proof. induction 1 as [|us uss -> _ IH]; [done|]. simpl. done. Qed.

Lemma interleave_perm {X : Type} (uss : list (list X)) (us : list X) :
  interleave uss us → us ≡ₚ mjoin uss.
Proof.
  induction 1 as [uss Hnil|uss tid x us rest Hlook _ IH].
  - by rewrite mjoin_all_nil.
  - rewrite IH.
    rewrite <- (take_drop_middle uss tid (x :: us)) at 2 by done.
    rewrite insert_take_drop by (by eapply lookup_lt_Some).
    rewrite !join_app. simpl.
    by rewrite Permutation_middle.
Qed.

Lemma interleave_in_turn_from {X : Type} (uss : list (list X)) (n : nat) :
  interleave (replicate n [] ++ uss) (mjoin uss).
Proof.
  revert n. induction uss as [|us uss IHuss]; intros n.
  - simpl. constructor. rewrite app_nil_r. by apply Forall_replicate.
  - simpl. revert n. induction us as [|x us IHus]; intros n.
    + simpl. specialize (IHuss (S n)).
      by rewrite replicate_S_end, <- (assoc_L (++)) in IHuss.
    + simpl. eapply (interleave_step _ n).
      * rewrite lookup_app_r by (by rewrite length_replicate).
        by rewrite length_replicate, Nat.sub_diag.
      * rewrite insert_app_r_alt by (by rewrite length_replicate).
        rewrite length_replicate, Nat.sub_diag. simpl. apply IHus.
Qed.

(** The workers taking their turns one after the other is a schedule. *)
Lemma interleave_in_turn {X : Type} (uss : list (list X)) :
  interleave uss (mjoin uss).
Proof. apply (interleave_in_turn_from uss 0). Qed.

(** ** Index tuples of a loop nest *)

Lemma linear_cons x xs l ls : linear (x :: xs) (l :: ls) = x * l + linear xs ls.
Proof. done. Qed.

Lemma points_tuples R pa pb :
  points R pa pb =
  (λ xs, (pa + linear xs ((λ r, r.1.2) <$> R), pb + linear xs (snd <$> R)))
    <$> tuples R.
Proof.
  revert pa pb. induction R as [|[[[first len] la] lb] R IH]; intros pa pb; simpl.
  - unfold linear. simpl. by rewrite !Z.add_0_r.
  - rewrite fmap_bind_list. apply bind_ext_in. intros x _.
    rewrite IH, <- list_fmap_compose. apply list_fmap_ext. intros _ xs _.
    csimpl. rewrite !linear_cons. f_equal; lia.
Qed.

Lemma elem_of_tuples R xs : xs ∈ tuples R ↔ in_ranges xs R.
Proof.
  unfold in_ranges. revert xs.
  induction R as [|[[[first len] la] lb] R IH]; intros xs; simpl.
  - rewrite list_elem_of_singleton. split; [by intros ->|by inv 1].
  - rewrite list_elem_of_bind. split.
    + intros (x & Hxs & Hx). apply list_elem_of_fmap in Hxs as (ys & -> & Hys).
      apply elem_of_seqZ in Hx. constructor; [done|]. by apply IH.
    + inv 1 as [|x ? ys ? Hx Hys]. simpl in Hx. exists x. split.
      * apply list_elem_of_fmap. exists ys. split; [done|]. by apply IH.
      * by apply elem_of_seqZ.
Qed.

Lemma NoDup_tuples R : NoDup (tuples R).
Proof.
  induction R as [|[[[first len] la] lb] R IH]; simpl.
  - apply NoDup_singleton.
  - apply NoDup_bind.
    + intros x1 x2 ys H1 H2.
      rewrite !list_elem_of_fmap. intros (? & -> & _) (? & ? & _). congruence.
    + intros x _. apply NoDup_fmap_2_strong; [|done]. congruence.
    + apply NoDup_seqZ.
Qed.

(** ** Mixed-radix offsets *)

Lemma linear_prefix_scale xs : ∀ acc os,
  linear xs (prefix_products acc os) = acc * linear xs (prefix_products 1 os).
Proof.
  induction xs as [|x xs IH]; intros acc [|o os]; simpl;
    try (unfold linear; simpl; lia).
  rewrite !linear_cons, (IH (acc * o)), (IH (1 * o)). lia.
Qed.

Lemma horner_bound xs os :
  in_box xs os → 0 ≤ linear xs (prefix_products 1 os) < product os.
Proof.
  induction 1 as [|x o xs os Hx _ IH]; simpl.
  - unfold linear. simpl. lia.
  - rewrite linear_cons, linear_prefix_scale. nia.
Qed.

Lemma horner_inj xs ys os :
  in_box xs os → in_box ys os →
  linear xs (prefix_products 1 os) = linear ys (prefix_products 1 os) →
  xs = ys.
Proof.
  intros Hxs. revert ys.
  induction Hxs as [|x o xs os Hx _ IH]; intros ys Hys Heq.
  - by inv Hys.
  - inv Hys as [|y ? ys' ? Hy Hys']. simpl in Heq.
    rewrite !linear_cons, (linear_prefix_scale xs), (linear_prefix_scale ys') in Heq.
    set (a := linear xs (prefix_products 1 os)) in *.
    set (b := linear ys' (prefix_products 1 os)) in *.
    assert (a = b) as Hab.
    { destruct (Z.lt_trichotomy a b) as [?|[?|?]]; [|done|]; nia. }
    f_equal; [nia|]. by apply IH.
Qed.

(** ** Permuted index tuples *)

Lemma fmap_atZ_seq (l : list Z) : atZ l <$> seq 0 (length l) = l.
Proof.
  apply list_eq. intros i. rewrite list_lookup_fmap.
  destruct (decide (i < length l)%nat) as [Hi|Hi].
  - rewrite lookup_seq_lt by done. simpl. unfold atZ.
    destruct (lookup_lt_is_Some_2 l i Hi) as [x ->]. done.
  - rewrite lookup_seq_ge by lia. by rewrite lookup_ge_None_2 by lia.
Qed.

Lemma fmap_atN_seq (l : list nat) : atN l <$> seq 0 (length l) = l.
Proof.
  apply list_eq. intros i. rewrite list_lookup_fmap.
  destruct (decide (i < length l)%nat) as [Hi|Hi].
  - rewrite lookup_seq_lt by done. simpl. unfold atN.
    destruct (lookup_lt_is_Some_2 l i Hi) as [x ->]. done.
  - rewrite lookup_seq_ge by lia. by rewrite lookup_ge_None_2 by lia.
Qed.

Lemma atZ_lookup (l : list Z) k x : l !! k = Some x → atZ l k = x.
Proof. unfold atZ. by intros ->. Qed.

Lemma atN_lookup (l : list nat) k x : l !! k = Some x → atN l k = x.
Proof. unfold atN. by intros ->. Qed.

Lemma lookup_atN (l : list nat) k : (k < length l)%nat → l !! k = Some (atN l k).
Proof.
  intros Hk. destruct (lookup_lt_is_Some_2 l k Hk) as [x Hx].
  by rewrite (atN_lookup _ _ _ Hx).
Qed.

Lemma lookup_atZ (l : list Z) k : (k < length l)%nat → l !! k = Some (atZ l k).
Proof.
  intros Hk. destruct (lookup_lt_is_Some_2 l k Hk) as [x Hx].
  by rewrite (atZ_lookup _ _ _ Hx).
Qed.

Lemma lookup_findPos v (π : list nat) : v ∈ π → π !! findPos v π = Some v.
Proof.
  induction π as [|x π IH]; [by intros ?%elem_of_nil|].
  intros Hv. simpl. case_decide; [by subst|].
  apply elem_of_cons in Hv as [->|Hv]; [done|]. simpl. auto.
Qed.

Lemma findPos_lookup v (π : list nat) k :
  NoDup π → π !! k = Some v → findPos v π = k.
Proof.
  intros Hnd Hk. eapply NoDup_lookup; [done| |done].
  apply lookup_findPos. by eapply list_elem_of_lookup_2.
Qed.

Lemma perm_seq_NoDup (π : list nat) d : π ≡ₚ seq 0 d → NoDup π.
Proof. intros ->. apply NoDup_seq. Qed.

Lemma perm_seq_length (π : list nat) d : π ≡ₚ seq 0 d → length π = d.
Proof. intros ->. apply length_seq. Qed.

Lemma perm_seq_elem (π : list nat) d v : π ≡ₚ seq 0 d → v ∈ π ↔ (v < d)%nat.
Proof. intros ->. rewrite elem_of_seq. lia. Qed.

Lemma findPos_lt (π : list nat) d j :
  π ≡ₚ seq 0 d → (j < d)%nat → (findPos j π < d)%nat.
Proof.
  intros Hπ Hj. rewrite <- (perm_seq_length π d Hπ).
  eapply lookup_lt_Some, lookup_findPos. by apply (perm_seq_elem π d).
Qed.

Lemma atN_perm_lt (π : list nat) d k :
  π ≡ₚ seq 0 d → (k < d)%nat → (atN π k < d)%nat.
Proof.
  intros Hπ Hk. apply (perm_seq_elem π d _ Hπ).
  eapply list_elem_of_lookup_2, lookup_atN. by rewrite (perm_seq_length π d).
Qed.

Lemma findPos_atN (π : list nat) d k :
  π ≡ₚ seq 0 d → (k < d)%nat → findPos (atN π k) π = k.
Proof.
  intros Hπ Hk. apply findPos_lookup; [by eapply perm_seq_NoDup|].
  apply lookup_atN. by rewrite (perm_seq_length π d).
Qed.

Lemma atN_findPos (π : list nat) d j :
  π ≡ₚ seq 0 d → (j < d)%nat → atN π (findPos j π) = j.
Proof.
  intros Hπ Hj. apply atN_lookup, lookup_findPos. by apply (perm_seq_elem π d).
Qed.

Lemma length_permute π i : length (permute π i) = length π.
Proof. unfold permute. by rewrite length_fmap, length_seq. Qed.

Lemma linear_fmap_seq (f g : nat → Z) d :
  linear (f <$> seq 0 d) (g <$> seq 0 d) = sumZ ((λ k, f k * g k) <$> seq 0 d).
Proof.
  unfold linear. f_equal.
  rewrite zip_with_fmap_l, zip_with_fmap_r, zip_with_diag. done.
Qed.

(** The offset in B of the permuted tuple is the tuple's offset under B's
    strides taken in A's axis order. *)
Lemma linear_permute (π : list nat) d (xs ldb : list Z) :
  π ≡ₚ seq 0 d → length xs = d → length ldb = d →
  linear (permute π xs) ldb
  = linear xs ((λ k, atZ ldb (atN π k)) <$> seq 0 d).
Proof.
  intros Hπ Hxs Hldb. unfold permute.
  rewrite (perm_seq_length π d Hπ).
  trans (linear ((λ j, atZ xs (findPos j π)) <$> seq 0 d) (atZ ldb <$> seq 0 d)).
  { by rewrite <- Hldb, fmap_atZ_seq. }
  trans (linear (atZ xs <$> seq 0 d) ((λ k, atZ ldb (atN π k)) <$> seq 0 d)).
  2: { by rewrite <- Hxs, fmap_atZ_seq. }
  rewrite !linear_fmap_seq.
  rewrite <- (sumZ_perm _ _
    (fmap_Permutation (λ j, atZ xs (findPos j π) * atZ ldb j) _ _ Hπ)).
  trans (sumZ ((λ j, atZ xs (findPos j π) * atZ ldb j) <$> (atN π <$> seq 0 d))).
  { by rewrite <- (perm_seq_length π d Hπ), fmap_atN_seq. }
  rewrite <- list_fmap_compose. f_equal.
  apply list_fmap_ext. intros _ k Hk%list_elem_of_lookup_2%elem_of_seq. simpl.
  by rewrite (findPos_atN π d) by (done || lia).
Qed.

Lemma in_box_at (xs S : list Z) k :
  in_box xs S → (k < length S)%nat → 0 ≤ atZ xs k < atZ S k.
Proof.
  intros Hbox Hk.
  destruct (lookup_lt_is_Some_2 S k Hk) as [s Hs].
  destruct (Forall2_lookup_r _ _ _ _ _ Hbox Hs) as (x & Hx & Hxs).
  by rewrite (atZ_lookup _ _ _ Hx), (atZ_lookup _ _ _ Hs).
Qed.

Lemma in_box_length (xs S : list Z) : in_box xs S → length xs = length S.
Proof. apply Forall2_length. Qed.

Lemma in_box_le (xs S O : list Z) :
  in_box xs S → Forall2 Z.le S O → in_box xs O.
Proof.
  intros Hbox. revert O.
  induction Hbox as [|x s xs S Hx _ IH]; intros O HO; inv HO; constructor.
  - lia.
  - by apply IH.
Qed.

Lemma permute_in_box (π : list nat) d (xs S : list Z) :
  π ≡ₚ seq 0 d → length S = d →
  in_box xs S → in_box (permute π xs) (permute π S).
Proof.
  intros Hπ HS Hbox. unfold permute, in_box.
  apply Forall2_fmap, Forall_Forall2_diag, Forall_forall.
  intros j Hj. apply elem_of_seq in Hj. rewrite (perm_seq_length π d Hπ) in Hj.
  apply in_box_at; [done|]. rewrite HS. apply findPos_lt; [done|lia].
Qed.

Lemma permute_inj (π : list nat) d (xs ys : list Z) :
  π ≡ₚ seq 0 d → length xs = d → length ys = d →
  permute π xs = permute π ys → xs = ys.
Proof.
  intros Hπ Hxs Hys Heq.
  rewrite <- (fmap_atZ_seq xs), <- (fmap_atZ_seq ys), Hxs, Hys.
  apply list_fmap_ext. intros _ k Hk%list_elem_of_lookup_2%elem_of_seq.
  assert (permute π xs !! atN π k = permute π ys !! atN π k) as Hl by by rewrite Heq.
  unfold permute in Hl. rewrite !list_lookup_fmap in Hl.
  rewrite (perm_seq_length π d Hπ) in Hl.
  rewrite lookup_seq_lt in Hl by (apply (atN_perm_lt π d); [done|lia]).
  simpl in Hl. rewrite (findPos_atN π d) in Hl by (done || lia).
  by simplify_eq.
Qed.

(** ** The loop nest of a valid shape *)

Lemma length_prefix_products os : ∀ acc, length (prefix_products acc os) = length os.
Proof. induction os as [|o os IH]; intros acc; simpl; [done|]. by rewrite IH. Qed.

Section Reference.
Context {T : Type}.
Variables (this : Transpose T) (sh : shape).

Local Abbreviation t := (Transpose_unfused sh this).
Local Abbreviation lda0 := (prefix_products 1 (sh_outerA sh)).
Local Abbreviation ldb0 := (prefix_products 1 (sh_outerB sh)).

Lemma axis_ranges_in_box xs :
  in_ranges xs (axis_range t <$> seq 0 (rank sh)) ↔ in_box xs (sh_size sh).
Proof.
  unfold in_ranges, in_box, rank.
  rewrite <- (fmap_atZ_seq (sh_size sh)) at 2.
  rewrite !Forall2_fmap_r. simpl.
  split; intros HF; (eapply Forall2_impl; [exact HF|]);
    intros x k Hx; unfold compose in *; simpl in *; lia.
Qed.

(** The loop nest visits, for every index tuple of the logical domain, the
    element of A at that tuple and the element of B at the permuted
    tuple. *)
Lemma reference_trace_tuples :
  wf_shape sh →
  reference_trace t =
  (λ xs, (A_ this + linear xs lda0, B_ this + linear (permute (sh_perm sh) xs) ldb0))
    <$> tuples (axis_range t <$> seq 0 (rank sh)).
Proof.
  intros (Hπlen & HOA & HOB & Hπ & _).
  unfold reference_trace. rewrite points_tuples. simpl.
  apply list_fmap_ext. intros _ xs Hxs%list_elem_of_lookup_2.
  apply elem_of_tuples, axis_ranges_in_box, in_box_length in Hxs.
  rewrite <- !list_fmap_compose. f_equal.
  - f_equal. f_equal. unfold compose. simpl.
    etrans; [|apply fmap_atZ_seq].
    by rewrite length_prefix_products, HOA.
  - f_equal. unfold compose. simpl.
    symmetry. apply linear_permute; [done..|].
    by rewrite length_prefix_products.
Qed.

Lemma elem_of_reference_trace a b :
  wf_shape sh →
  (a, b) ∈ reference_trace t ↔
  ∃ xs, in_box xs (sh_size sh) ∧
    a = A_ this + linear xs lda0 ∧
    b = B_ this + linear (permute (sh_perm sh) xs) ldb0.
Proof.
  intros Hwf. rewrite reference_trace_tuples by done.
  rewrite list_elem_of_fmap. setoid_rewrite elem_of_tuples.
  setoid_rewrite axis_ranges_in_box. split.
  - intros (xs & Heq & Hxs). exists xs. by simplify_eq.
  - intros (xs & Hxs & -> & ->). by exists xs.
Qed.

Lemma permuted_in_outer xs :
  valid_shape sh → in_box xs (sh_size sh) →
  in_box (permute (sh_perm sh) xs) (sh_outerB sh).
Proof.
  intros ((_ & _ & _ & Hπ & _) & _ & HB) Hbox.
  eapply in_box_le; [|exact HB]. by eapply permute_in_box.
Qed.

Lemma NoDup_reference_targets :
  valid_shape sh → NoDup (reference_trace t).*2.
Proof.
  intros Hv. pose proof Hv as (Hwf & _).
  rewrite reference_trace_tuples by done.
  rewrite <- list_fmap_compose.
  apply NoDup_fmap_2_strong; [|apply NoDup_tuples].
  intros xs ys Hxs%elem_of_tuples%axis_ranges_in_box
    Hys%elem_of_tuples%axis_ranges_in_box Heq. simpl in Heq.
  destruct Hwf as (_ & _ & _ & Hπ & _).
  apply (permute_inj (sh_perm sh) (rank sh)); [done|by apply in_box_length..|].
  apply (horner_inj _ _ (sh_outerB sh)); [by apply permuted_in_outer..|].
  lia.
Qed.

Lemma reads_apart_reference :
  valid_shape sh → separate_buffers (A_ this) (B_ this) sh →
  reads_apart (reference_trace t).
Proof.
  intros Hv Hsep a b Ha Hb. pose proof Hv as (Hwf & HA & _).
  apply list_elem_of_fmap in Ha as ([a' b'] & -> & Ha).
  apply list_elem_of_fmap in Hb as ([a'' b''] & -> & Hb).
  apply elem_of_reference_trace in Ha as (xs & Hxs & -> & _); [|done].
  apply elem_of_reference_trace in Hb as (ys & Hys & _ & ->); [|done].
  simpl.
  pose proof (horner_bound xs (sh_outerA sh) (in_box_le _ _ _ Hxs HA)).
  pose proof (horner_bound _ (sh_outerB sh) (permuted_in_outer ys Hv Hys)).
  destruct Hsep; lia.
Qed.
End Reference.

(** ** Fusing two axes *)

Lemma product_app l1 l2 : product (l1 ++ l2) = product l1 * product l2.
Proof. induction l1 as [|x l1 IH]; simpl; [lia|]. rewrite IH. lia. Qed.

Lemma lookup_prefix_products os : ∀ acc m,
  (m < length os)%nat →
  prefix_products acc os !! m = Some (acc * product (take m os)).
Proof.
  induction os as [|o os IH]; intros acc m Hm; simpl in *; [lia|].
  destruct m as [|m]; simpl.
  - f_equal. lia.
  - rewrite IH by lia. f_equal. lia.
Qed.

Lemma atZ_prefix_products os m :
  (m < length os)%nat → atZ (prefix_products 1 os) m = product (take m os).
Proof.
  intros Hm. unfold atZ. rewrite lookup_prefix_products by done. simpl. lia.
Qed.

Lemma product_take_S (l : list Z) m :
  (m < length l)%nat → product (take (S m) l) = product (take m l) * atZ l m.
Proof.
  intros Hm. destruct (lookup_lt_is_Some_2 l m Hm) as [x Hx].
  rewrite (take_S_r _ _ _ Hx), product_app, (atZ_lookup _ _ _ Hx). simpl. lia.
Qed.

Lemma merge_at_split (l : list Z) k :
  (S k < length l)%nat →
  l = take k l ++ atZ l k :: atZ l (S k) :: drop (S (S k)) l.
Proof.
  intros Hk.
  rewrite <- (take_drop_middle l k (atZ l k)) at 1 by (apply lookup_atZ; lia).
  f_equal. f_equal.
  rewrite <- (take_drop_middle (drop (S k) l) 0 (atZ l (S k))).
  - simpl. rewrite drop_drop. do 2 f_equal. lia.
  - rewrite lookup_drop, Nat.add_0_r. apply lookup_atZ. lia.
Qed.

Lemma length_merge_at (l : list Z) k :
  (S k < length l)%nat → length (merge_at k l) = pred (length l).
Proof.
  intros Hk. unfold merge_at.
  rewrite length_app, length_take. simpl. rewrite length_drop. lia.
Qed.

Lemma atZ_merge_at (l : list Z) k m :
  (S k < length l)%nat →
  atZ (merge_at k l) m =
  if decide (m < k)%nat then atZ l m
  else if decide (m = k) then atZ l k * atZ l (S k)
  else atZ l (S m).
Proof.
  intros Hk. unfold merge_at, atZ at 1.
  repeat case_decide.
  - rewrite lookup_app_l by (rewrite length_take; lia).
    by rewrite lookup_take_lt by lia.
  - subst. rewrite list_lookup_middle; [done|]. rewrite length_take. lia.
  - rewrite lookup_app_r by (rewrite length_take; lia).
    rewrite length_take, Nat.min_l by lia.
    destruct (m - k)%nat as [|j] eqn:Hj; [lia|]. simpl.
    rewrite lookup_drop. unfold atZ. do 2 f_equal. lia.
Qed.

Lemma product_take_merge_at (l : list Z) k m :
  (S k < length l)%nat →
  product (take m (merge_at k l)) =
  if decide (m ≤ k)%nat then product (take m l) else product (take (S m) l).
Proof.
  intros Hk. case_decide as Hm.
  - unfold merge_at. rewrite take_app_le by (rewrite length_take; lia).
    by rewrite take_take, Nat.min_l by lia.
  - rewrite (merge_at_split l k Hk) at 2. unfold merge_at.
    rewrite !take_app_ge by (rewrite length_take; lia).
    rewrite length_take, Nat.min_l by lia.
    replace (S m - k)%nat with (S (S (m - k - 1))) by lia.
    replace (m - k)%nat with (S (m - k - 1)) by lia.
    simpl. rewrite !product_app, Nat.sub_0_r. simpl. lia.
Qed.

Lemma fusible_inv sh k :
  fusible sh k = true →
  sh_perm sh !! k = Some (atN (sh_perm sh) k) ∧
  sh_perm sh !! S k = Some (S (atN (sh_perm sh) k)) ∧
  atZ (sh_outerA sh) k = atZ (sh_size sh) k ∧
  atZ (sh_outerB sh) (atN (sh_perm sh) k) = atZ (sh_size sh) k.
Proof.
  unfold fusible. destruct (sh_perm sh !! k) as [q|] eqn:Hq; [|done].
  destruct (sh_perm sh !! S k) as [q'|] eqn:Hq'; [|done].
  rewrite !andb_true_iff, !bool_decide_eq_true.
  intros ((((-> & HA) & _) & HB) & _).
  by rewrite (atN_lookup _ _ _ Hq).
Qed.

Section Fusion.
Context {T : Type}.
Variables (this : Transpose T) (sh : shape) (k : nat).
Hypothesis Hwf : wf_shape sh.
Hypothesis Hfus : fusible sh k = true.

Local Abbreviation d := (rank sh).
Local Abbreviation q := (atN (sh_perm sh) k).
Local Abbreviation t := (Transpose_unfused sh this).
Local Abbreviation t' := (Transpose_unfused (fuse_pair k sh) this).

Lemma fusible_lt : (S k < d)%nat.
Proof.
  destruct Hwf as (Hlen & _). destruct (fusible_inv sh k Hfus) as (_ & H2 & _).
  rewrite <- Hlen. by eapply lookup_lt_Some.
Qed.

Lemma fusible_target_lt : (S q < d)%nat.
Proof.
  destruct Hwf as (_ & _ & _ & Hπ & _).
  destruct (fusible_inv sh k Hfus) as (_ & H2 & _).
  apply (perm_seq_elem _ _ _ Hπ). by eapply list_elem_of_lookup_2.
Qed.

Lemma rank_fuse_pair : rank (fuse_pair k sh) = pred d.
Proof. unfold rank. simpl. apply length_merge_at, fusible_lt. Qed.

(** An axis other than the fused pair keeps its B axis, renumbered. *)
Lemma other_axis_target m :
  (m < d)%nat → m ≠ k → m ≠ S k →
  atN (sh_perm sh) m ≠ q ∧ atN (sh_perm sh) m ≠ S q ∧ (atN (sh_perm sh) m < d)%nat.
Proof.
  intros Hm Hk HSk. destruct Hwf as (Hlen & _ & _ & Hπ & _).
  destruct (fusible_inv sh k Hfus) as (H1 & H2 & _).
  pose proof (perm_seq_NoDup _ _ Hπ) as Hnd.
  assert (sh_perm sh !! m = Some (atN (sh_perm sh) m)) as Hm'
    by (apply lookup_atN; lia).
  split_and!.
  - intros Heq. rewrite Heq in Hm'. by pose proof (NoDup_lookup _ _ _ _ Hnd Hm' H1).
  - intros Heq. rewrite Heq in Hm'. by pose proof (NoDup_lookup _ _ _ _ Hnd Hm' H2).
  - by apply (atN_perm_lt _ d).
Qed.

Lemma atN_fused_perm m :
  (m < pred d)%nat →
  atN (sh_perm (fuse_pair k sh)) m =
  let v := atN (sh_perm sh) (if decide (m ≤ k)%nat then m else S m) in
  if decide (v ≤ q)%nat then v else pred v.
Proof.
  intros Hm. destruct Hwf as (Hlen & _). simpl. unfold atN at 1.
  rewrite list_lookup_fmap, list_lookup_delete.
  replace (if decide (m < S k)%nat then m else S m)
    with (if decide (m ≤ k)%nat then m else S m) by (repeat case_decide; lia).
  rewrite lookup_atN by (case_decide; lia). done.
Qed.

Lemma axis_range_fused m :
  (m < pred d)%nat → m ≠ k →
  axis_range t' m = axis_range t (if decide (m ≤ k)%nat then m else S m).
Proof.
  intros Hm Hmk. pose proof fusible_lt as Hk. pose proof fusible_target_lt as Hq.
  destruct Hwf as (Hlen & HOA & HOB & Hπ & _).
  destruct (other_axis_target (if decide (m ≤ k)%nat then m else S m))
    as (Hv1 & Hv2 & Hv3); [case_decide; lia..|].
  unfold axis_range. rewrite atN_fused_perm by done. simpl.
  set (v := atN (sh_perm sh) (if decide (m ≤ k)%nat then m else S m)) in *.
  rewrite atZ_merge_at by done.
  rewrite !atZ_prefix_products;
    rewrite ?length_merge_at; try (repeat case_decide; lia).
  rewrite !product_take_merge_at by lia.
  clearbody v.
  f_equal; [f_equal; [f_equal|]|]; repeat case_decide; try lia; try done.
  do 2 f_equal. lia.
Qed.

Lemma axis_range_fused_pair :
  axis_range t' k =
  (0, atZ (sh_size sh) k * atZ (sh_size sh) (S k),
   atZ (lda_ t) k, atZ (ldb_ t) q).
Proof.
  pose proof fusible_lt as Hk. pose proof fusible_target_lt as Hq.
  destruct Hwf as (Hlen & HOA & HOB & Hπ & _).
  unfold axis_range. rewrite atN_fused_perm by lia. simpl.
  rewrite (decide_True (P:=(k ≤ k)%nat)) by lia.
  rewrite decide_True by lia.
  rewrite atZ_merge_at by done.
  rewrite !atZ_prefix_products; rewrite ?length_merge_at; try lia.
  rewrite !product_take_merge_at by lia.
  by rewrite decide_False, !decide_True by lia.
Qed.

Lemma axis_range_second :
  axis_range t (S k) =
  (0, atZ (sh_size sh) (S k),
   atZ (lda_ t) k * atZ (sh_size sh) k, atZ (ldb_ t) q * atZ (sh_size sh) k).
Proof.
  pose proof fusible_lt as Hk. pose proof fusible_target_lt as Hq.
  destruct Hwf as (Hlen & HOA & HOB & Hπ & _).
  destruct (fusible_inv sh k Hfus) as (_ & H2 & HA & HB).
  unfold axis_range. simpl. rewrite (atN_lookup _ _ _ H2).
  rewrite !atZ_prefix_products by lia.
  rewrite !product_take_S by lia. by rewrite HA, HB.
Qed.
End Fusion.

(** Two nested loops over [s1] and [s2] indices whose strides differ by
    the factor [s1] visit what a single loop over [s1·s2] indices does. *)
Lemma points_merge R1 R2 s1 s2 la lb pa pb :
  0 ≤ s1 → 0 ≤ s2 →
  points (R1 ++ (0, s1 * s2, la, lb) :: R2) pa pb
  ≡ₚ points (R1 ++ (0, s1, la, lb) :: (0, s2, la * s1, lb * s1) :: R2) pa pb.
Proof.
  intros Hs1 Hs2. rewrite !points_app. apply bind_perm_ext. intros [a b] _. simpl.
  rewrite (Z.mul_comm s1 s2), seqZ_mul, bind_assoc by done.
  rewrite (bind_ext_in _ (λ c, seqZ 0 s1 ≫= (λ x,
             points R2 (a + (c * s1 + x) * la) (b + (c * s1 + x) * lb))))
    by (intros c _; by rewrite list_fmap_bind).
  rewrite bind_comm_perm. apply bind_perm_ext. intros x1 _.
  apply bind_perm_ext. intros x2 _. f_equiv; lia.
Qed.

Lemma atZ_nonneg (l : list Z) m : Forall (λ s, 0 ≤ s) l → 0 ≤ atZ l m.
Proof.
  intros Hl. unfold atZ. destruct (l !! m) as [s|] eqn:Hs; simpl; [|done].
  by eapply (Forall_lookup_1 _ _ _ _ Hl).
Qed.

Section FusionTrace.
Context {T : Type}.
Variables (this : Transpose T) (sh : shape) (k : nat).
Hypothesis Hwf : wf_shape sh.
Hypothesis Hfus : fusible sh k = true.

(** Fusing a fusible pair leaves the set of element updates as it is. *)
Lemma reference_trace_fuse_pair :
  reference_trace (Transpose_unfused (fuse_pair k sh) this)
  ≡ₚ reference_trace (Transpose_unfused sh this).
Proof.
  pose proof (fusible_lt sh k Hwf Hfus) as Hk.
  pose proof Hwf as (_ & _ & _ & _ & Hsize).
  unfold reference_trace.
  change (length (sizeA_ (Transpose_unfused (fuse_pair k sh) this)))
    with (rank (fuse_pair k sh)).
  change (length (sizeA_ (Transpose_unfused sh this))) with (rank sh).
  rewrite (rank_fuse_pair sh k Hwf Hfus).
  assert (seq 0 (rank sh)
          = seq 0 k ++ k :: S k :: seq (S (S k)) (rank sh - k - 2)) as Hseq.
  { replace (rank sh) with (k + S (S (rank sh - k - 2)))%nat at 1 by lia.
    by rewrite seq_app. }
  replace (pred (rank sh)) with (k + S (rank sh - k - 2))%nat by lia.
  rewrite seq_app, Hseq. cbn [seq Nat.add]. rewrite !fmap_app, !fmap_cons.
  rewrite (axis_range_fused_pair this sh k Hwf Hfus).
  rewrite (axis_range_second this sh k Hwf Hfus).
  rewrite (list_fmap_ext (axis_range (Transpose_unfused (fuse_pair k sh) this))
             (axis_range (Transpose_unfused sh this)) (seq 0 k)).
  2: { intros _ m Hm%list_elem_of_lookup_2%elem_of_seq.
       rewrite (axis_range_fused this sh k Hwf Hfus) by lia.
       by rewrite decide_True by lia. }
  rewrite (list_fmap_ext (axis_range (Transpose_unfused (fuse_pair k sh) this))
             (axis_range (Transpose_unfused sh this) ∘ S)
             (seq (S k) (rank sh - k - 2))).
  2: { intros _ m Hm%list_elem_of_lookup_2%elem_of_seq.
       rewrite (axis_range_fused this sh k Hwf Hfus) by lia.
       by rewrite decide_False by lia. }
  rewrite list_fmap_compose, fmap_S_seq.
  apply points_merge; by apply atZ_nonneg.
Qed.
End FusionTrace.

(** ** Fusing keeps shapes well formed *)

Lemma perm_of_NoDup_bounded (l : list nat) n :
  NoDup l → Forall (λ v, v < n)%nat l → length l = n → l ≡ₚ seq 0 n.
Proof.
  intros Hnd Hb Hlen. apply submseteq_length_Permutation.
  - apply NoDup_submseteq; [done|]. intros v Hv. apply elem_of_seq.
    rewrite Forall_forall in Hb. specialize (Hb v Hv). lia.
  - by rewrite length_seq, Hlen.
Qed.

Lemma product_nonneg l : Forall (λ s, 0 ≤ s) l → 0 ≤ product l.
Proof. induction 1; simpl; nia. Qed.

Lemma merge_at_nonneg (l : list Z) k :
  Forall (λ s, 0 ≤ s) l → Forall (λ s, 0 ≤ s) (merge_at k l).
Proof.
  intros Hl. unfold merge_at. apply Forall_app. split; [by apply Forall_take|].
  constructor; [|by apply Forall_drop].
  pose proof (atZ_nonneg l k Hl). pose proof (atZ_nonneg l (S k) Hl). nia.
Qed.

Lemma NoDup_delete_inv (l : list nat) i v :
  NoDup l → l !! i = Some v → NoDup (delete i l) ∧ v ∉ delete i l.
Proof.
  intros Hnd Hi. rewrite delete_take_drop.
  rewrite <- (take_drop_middle l i v Hi) in Hnd.
  apply NoDup_app in Hnd as (H1 & H2 & H3).
  apply NoDup_cons in H3 as (H3 & H4). split.
  - apply NoDup_app. split_and!; [done| |done].
    intros x Hx Hx'. apply (H2 x Hx). by right.
  - rewrite elem_of_app. intros [Hv|Hv]; [|done]. apply (H2 v Hv). left.
Qed.

Lemma wf_fuse_pair sh k :
  wf_shape sh → fusible sh k = true → wf_shape (fuse_pair k sh).
Proof.
  intros Hwf Hfus.
  pose proof (fusible_lt sh k Hwf Hfus) as Hk.
  pose proof (fusible_target_lt sh k Hwf Hfus) as Hq.
  pose proof (rank_fuse_pair sh k Hwf Hfus) as Hrank.
  destruct (fusible_inv sh k Hfus) as (H1 & H2 & _).
  pose proof Hwf as (Hlen & HOA & HOB & Hπ & Hsize).
  assert (length (sh_perm (fuse_pair k sh)) = pred (rank sh)) as Hlen'.
  { simpl. rewrite length_fmap, length_delete by eauto. lia. }
  unfold wf_shape. rewrite Hrank. split_and!.
  - done.
  - simpl. rewrite length_merge_at by lia. lia.
  - simpl. rewrite length_merge_at by lia. lia.
  - destruct (NoDup_delete_inv _ _ _ (perm_seq_NoDup _ _ Hπ) H2) as (Hnd & Hnot).
    assert (∀ v, v ∈ delete (S k) (sh_perm sh) →
                 (v < rank sh)%nat ∧ v ≠ S (atN (sh_perm sh) k)) as Hin.
    { intros v Hv. split; [|by intros ->].
      apply (perm_seq_elem _ _ _ Hπ). by eapply list_elem_of_delete_inv. }
    apply perm_of_NoDup_bounded; [| |done].
    + simpl. apply NoDup_fmap_2_strong; [|done].
      intros v1 v2 Hv1%Hin Hv2%Hin. repeat case_decide; lia.
    + simpl. apply Forall_fmap, Forall_forall. intros v Hv%Hin. simpl.
      case_decide; lia.
  - simpl. by apply merge_at_nonneg.
Qed.

Lemma find_fusible_Some sh n k :
  find_fusible sh n = Some k → fusible sh k = true ∧ (k < n)%nat.
Proof.
  induction n as [|n IH]; simpl; [done|].
  destruct (fusible sh n) eqn:Hn.
  - intros [= <-]. split; [done|lia].
  - intros Hk%IH. split; [tauto|lia].
Qed.

Lemma wf_fuse_rounds n : ∀ sh, wf_shape sh → wf_shape (fuse_rounds n sh).
Proof.
  induction n as [|n IH]; intros sh Hwf; simpl; [done|].
  destruct (find_fusible sh (rank sh)) as [k|] eqn:Hk; [|done].
  apply IH, wf_fuse_pair; [done|]. by apply find_fusible_Some in Hk as [? _].
Qed.

(** Fusing ends with a shape that has no fusible pair left, and every
    round lowers the rank by one. *)
Lemma fuse_rounds_complete n : ∀ sh,
  wf_shape sh → (rank sh ≤ n)%nat →
  find_fusible (fuse_rounds n sh) (rank (fuse_rounds n sh)) = None.
Proof.
  induction n as [|n IH]; intros sh Hwf Hn; simpl.
  - by replace (rank sh) with 0%nat by lia.
  - destruct (find_fusible sh (rank sh)) as [k|] eqn:Hk; [|done].
    apply find_fusible_Some in Hk as [Hfus Hlt].
    apply IH; [by apply wf_fuse_pair|].
    rewrite rank_fuse_pair by done. lia.
Qed.

Lemma fuse_rounds_trace {T : Type} (this : Transpose T) n : ∀ sh,
  wf_shape sh →
  reference_trace (Transpose_unfused (fuse_rounds n sh) this)
  ≡ₚ reference_trace (Transpose_unfused sh this).
Proof.
  induction n as [|n IH]; intros sh Hwf; simpl; [done|].
  destruct (find_fusible sh (rank sh)) as [k|] eqn:Hk; [|done].
  apply find_fusible_Some in Hk as [Hfus _].
  rewrite IH by (by apply wf_fuse_pair).
  by apply reference_trace_fuse_pair.
Qed.

(** ** C2: validation *)

Lemma forallb_seq_true (f : nat → bool) d :
  forallb f (seq 0 d) = true ↔ ∀ k, (k < d)%nat → f k = true.
Proof.
  rewrite forallb_forall. split.
  - intros Hf k Hk. apply Hf, in_seq. lia.
  - intros Hf k Hk%in_seq. apply Hf. lia.
Qed.

Lemma perm_ok_spec perm d :
  perm_ok perm d = true ↔
  (∀ i, (i < d)%nat → 0 ≤ atZ perm i < Z.of_nat d) ∧
  (∀ v, (v < d)%nat → ∃ i, (i < d)%nat ∧ atZ perm i = Z.of_nat v).
Proof.
  unfold perm_ok. rewrite andb_true_iff, !forallb_seq_true.
  setoid_rewrite bool_decide_eq_true. setoid_rewrite existsb_exists.
  setoid_rewrite bool_decide_eq_true. setoid_rewrite in_seq.
  split; intros [H1 H2]; (split; [done|]); intros v Hv;
    destruct (H2 v Hv) as (i & ? & ?); exists i; split; (lia || done).
Qed.

Lemma outer_ok_spec sizeA perm outerSizeA outerSizeB d :
  outer_ok sizeA perm outerSizeA outerSizeB d = true ↔
  (∀ k, (k < d)%nat → atZ sizeA k ≤ atZ outerSizeA k) ∧
  (∀ k, (k < d)%nat → atZ sizeA k ≤ atZ outerSizeB (Z.to_nat (atZ perm k))).
Proof.
  unfold outer_ok. rewrite andb_true_iff, !forallb_seq_true.
  by setoid_rewrite bool_decide_eq_true.
Qed.

Lemma atN_to_nat perm k :
  (k < length perm)%nat → atN (Z.to_nat <$> perm) k = Z.to_nat (atZ perm k).
Proof.
  intros Hk. unfold atN. rewrite list_lookup_fmap.
  by rewrite (lookup_atZ perm k Hk).
Qed.

Lemma perm_ok_permutation perm d :
  length perm = d → perm_ok perm d = true →
  Z.to_nat <$> perm ≡ₚ seq 0 d ∧ perm ≡ₚ seqZ 0 (Z.of_nat d).
Proof.
  intros Hlen [Hrange Hsurj]%perm_ok_spec.
  assert (Z.to_nat <$> perm ≡ₚ seq 0 d) as Hπ.
  { symmetry. apply submseteq_length_Permutation.
    - apply NoDup_submseteq; [apply NoDup_seq|].
      intros v Hv%elem_of_seq. destruct (Hsurj v) as (i & Hi & Hv'); [lia|].
      apply list_elem_of_fmap. exists (Z.of_nat v). split; [lia|].
      rewrite <- Hv'. eapply list_elem_of_lookup_2, lookup_atZ. lia.
    - by rewrite length_fmap, length_seq, Hlen. }
  split; [done|].
  rewrite seqZ_0_of_nat, Nat2Z.id, <- Hπ, <- list_fmap_compose.
  replace ((Z.of_nat ∘ Z.to_nat) <$> perm) with perm; [done|].
  rewrite <- (list_fmap_id perm) at 1. apply list_fmap_ext.
  intros i x Hx. simpl.
  pose proof (Hrange i ltac:(rewrite <- Hlen; by eapply lookup_lt_Some)) as Hr.
  rewrite (atZ_lookup _ _ _ Hx) in Hr. lia.
Qed.

Lemma Forall2_le_at (l1 l2 : list Z) d :
  length l1 = d → length l2 = d →
  (∀ k, (k < d)%nat → atZ l1 k ≤ atZ l2 k) → Forall2 Z.le l1 l2.
Proof.
  intros H1 H2 Hle.
  rewrite <- (fmap_atZ_seq l1), <- (fmap_atZ_seq l2), H1, H2.
  apply Forall2_fmap, Forall_Forall2_diag, Forall_forall.
  intros k Hk%elem_of_seq. apply Hle. lia.
Qed.

(** What passing the validation gives. *)
Lemma validated_shape sizeA perm outerSizeA outerSizeB dim :
  1 ≤ dim →
  arrays_of_length (Z.to_nat dim) sizeA perm outerSizeA outerSizeB →
  perm_ok perm (Z.to_nat dim) = true →
  outer_ok sizeA perm outerSizeA outerSizeB (Z.to_nat dim) = true →
  perm ≡ₚ seqZ 0 dim ∧
  Z.to_nat <$> perm ≡ₚ seq 0 (Z.to_nat dim) ∧
  Forall2 Z.le sizeA outerSizeA ∧
  Forall2 Z.le (permute (Z.to_nat <$> perm) sizeA) outerSizeB.
Proof.
  intros Hdim (HS & HP & HOA & HOB) Hperm [HA HB]%outer_ok_spec.
  destruct (perm_ok_permutation perm (Z.to_nat dim) HP Hperm) as [Hπ Hπz].
  rewrite Z2Nat.id in Hπz by lia. split_and!; [done|done| |].
  - by apply (Forall2_le_at _ _ (Z.to_nat dim)).
  - apply (Forall2_le_at _ _ (Z.to_nat dim)); [|done|].
    { by rewrite length_permute, length_fmap. }
    intros j Hj. unfold permute. unfold atZ at 1.
    rewrite list_lookup_fmap, length_fmap, HP, lookup_seq_lt by done. simpl.
    pose proof (findPos_lt _ _ j Hπ Hj) as Hk.
    specialize (HB _ Hk).
    rewrite <- atN_to_nat, (atN_findPos _ _ _ Hπ Hj) in HB by lia. done.
Qed.


Lemma verifyParameter_Ok {T : Type} (this : Transpose T)
    sizeA perm outerSizeA outerSizeB dim :
  verifyParameter this sizeA perm outerSizeA outerSizeB dim = Ok () →
  1 ≤ dim ∧ perm_ok perm (Z.to_nat dim) = true ∧
  outer_ok sizeA perm outerSizeA outerSizeB (Z.to_nat dim) = true.
Proof.
  unfold verifyParameter. repeat case_match; try done.
  intros _. split_and!; [lia|by apply negb_false_iff..].
Qed.





(** ** Running a planned object *)

Section Run.
Context {T : Type} `{ElementTraits T}.
Variables (hw : arch) (w : N).

Lemma execute_expert_in_turn s p bz (t : Transpose T) h h' :
  execute_expert s p bz t h = Some h' → execute_parallel bz t h h'.
Proof.
  unfold execute_expert, execute_parallel.
  destruct (traces t) as [uss|]; [|done]. simpl. intros [= <-].
  exists uss, (mjoin uss). split_and!; [done|apply interleave_in_turn|done].
Qed.

(** Whatever candidate the planner picks, any object [tp] that holds the
    plan made for [t] (the planned object itself, or one with other
    scalars and pointers) ends its runs, under every schedule and in both
    variants, in the memory that the updates [us0] produce, provided
    [us0] lists the updates of [t]'s loop nest at [tp]'s pointers, has
    distinct targets and reads nothing it writes. *)
Lemma run_planned (t t' tp : Transpose T) lo par us0 bz h :
  candidate t lo par →
  Forall (λ s, 0 ≤ s) (sizeA_ t) →
  createPlan hw w lo par t = Ok t' →
  masterPlan_ tp = masterPlan_ t' →
  points (axis_range t <$> seq 0 (length (sizeA_ t))) (A_ tp) (B_ tp) ≡ₚ us0 →
  NoDup us0.*2 → reads_apart us0 →
  (∀ s p, ∃ h', execute_expert s p bz tp h = Some h') ∧
  ∀ h', execute_parallel bz tp h h' →
    ∀ z, h' z = run_updates bz (alpha_ tp) (beta_ tp) us0 h z.
Proof.
  intros Hc Hsize Hplan Htp Hperm Hnd Hr.
  destruct (createPlan_candidate hw w t lo par Hc) as (p & Hplan' & Hn & Hroots).
  rewrite Hplan in Hplan'. injection Hplan' as ->. simpl in Htp.
  destruct (planned_traces hw w t tp lo par p Hc Hsize Hn Hroots Htp)
    as (uss & Huss & Hj).
  split.
  - intros s p'. eexists. unfold execute_expert. rewrite Huss. reflexivity.
  - intros h' (uss' & us & Htr & Hint & ->) z.
    rewrite Huss in Htr. injection Htr as <-.
    symmetry. apply run_updates_perm; [|done..].
    by rewrite (interleave_perm _ _ Hint), Hj.
Qed.
End Run.

(** ** The constructor *)

Lemma input_shape_valid sizeA perm outerSizeA outerSizeB dim :
  well_formed_input sizeA perm outerSizeA outerSizeB dim →
  1 ≤ dim → perm_ok perm (Z.to_nat dim) = true →
  outer_ok sizeA perm outerSizeA outerSizeB (Z.to_nat dim) = true →
  input_shape sizeA perm outerSizeA outerSizeB dim
    = mkShape sizeA (Z.to_nat <$> perm) outerSizeA outerSizeB ∧
  valid_shape (mkShape sizeA (Z.to_nat <$> perm) outerSizeA outerSizeB).
Proof.
  intros [Hlen Hsize] Hdim Hperm Houter.
  destruct (validated_shape _ _ _ _ _ Hdim Hlen Hperm Houter) as (_ & Hπ & HA & HB).
  destruct Hlen as (HS & HP & HOA & HOB). split.
  - unfold input_shape. by rewrite !take_ge by lia.
  - unfold valid_shape, wf_shape, rank, sizeB. simpl.
    rewrite length_fmap, HS, HP, HOA, HOB. by split_and!.
Qed.

(** A constructed object is the fused form of a valid input shape. *)
Lemma Transpose_ctor_Ok {T : Type} sizeA perm outerSizeA outerSizeB dim
    A (alpha : T) B beta m numThreads t :
  well_formed_input sizeA perm outerSizeA outerSizeB dim →
  Transpose_ctor sizeA perm outerSizeA outerSizeB dim A alpha B beta m numThreads
    = Ok t →
  valid_shape (mkShape sizeA (Z.to_nat <$> perm) outerSizeA outerSizeB) ∧
  ∃ this,
    t = Transpose_unfused
          (fuse (mkShape sizeA (Z.to_nat <$> perm) outerSizeA outerSizeB)) this ∧
    A_ this = A ∧ B_ this = B ∧ alpha_ this = alpha ∧ beta_ this = beta ∧
    numThreads_ this = numThreads.
Proof.
  intros Hwf. unfold Transpose_ctor, resize_members, vector_resize.
  destruct (decide (dim < 0)); [done|]. simpl.
  match goal with
  | |- outcome_bind (verifyParameter ?this _ _ _ _ _) _ = _ → _ =>
      set (this0 := this);
      destruct (verifyParameter this0 sizeA perm outerSizeA outerSizeB dim)
        as [[]|e] eqn:Hv; [|done]
  end.
  apply verifyParameter_Ok in Hv as (Hdim & Hperm & Houter).
  destruct (input_shape_valid _ _ _ _ _ Hwf Hdim Hperm Houter) as [Hsh Hvalid].
  simpl. intros [= <-]. split; [done|].
  exists this0. unfold fuseIndices. by rewrite Hsh.
Qed.

Lemma fuse_trace {T : Type} (this : Transpose T) sh :
  wf_shape sh →
  reference_trace (Transpose_unfused (fuse sh) this)
  ≡ₚ reference_trace (Transpose_unfused sh this).
Proof. apply fuse_rounds_trace. Qed.

Lemma fuse_sizes_nonneg sh :
  wf_shape sh → Forall (λ s, 0 ≤ s) (sh_size (fuse sh)).
Proof. intros Hwf. by apply (wf_fuse_rounds (rank sh)) in Hwf as (_ & _ & _ & _ & ?). Qed.

(** The members the constructor takes over from its arguments. *)
Lemma Transpose_ctor_members {T : Type} sizeA perm outerSizeA outerSizeB dim
    A (alpha : T) B beta m numThreads t :
  Transpose_ctor sizeA perm outerSizeA outerSizeB dim A alpha B beta m numThreads
    = Ok t →
  A_ t = A ∧ B_ t = B ∧ alpha_ t = alpha ∧ beta_ t = beta ∧
  numThreads_ t = numThreads ∧ masterPlan_ t = None ∧
  blocking_constStride1_ t = Some 1.
Proof.
  unfold Transpose_ctor, resize_members, vector_resize.
  destruct (decide (dim < 0)); [done|]. simpl.
  match goal with
  | |- outcome_bind ?v _ = _ → _ => destruct v as [[]|e]; [|done]
  end.
  simpl. by intros [= <-].
Qed.

(** ** C1, C5, C4: what a run computes *)

Section Claims.
Context {T : Type} `{ElementTraits T}.
Variables (hw : arch) (w : N).

(** Everything the claims about runs have in common: an object that holds
    the plan of a constructed object runs to the memory given by the loop
    nest of the input shape at its own pointers. *)
Lemma constructed_runs sizeA perm outerSizeA outerSizeB dim
    A (alpha : T) B beta m numThreads t n lo par t' tp bz h :
  well_formed_input sizeA perm outerSizeA outerSizeB dim →
  Transpose_ctor sizeA perm outerSizeA outerSizeB dim A alpha B beta m numThreads
    = Ok t →
  candidate (setNumThreads n t) lo par →
  createPlan hw w lo par (setNumThreads n t) = Ok t' →
  masterPlan_ tp = masterPlan_ t' →
  separate_buffers (A_ tp) (B_ tp)
    (mkShape sizeA (Z.to_nat <$> perm) outerSizeA outerSizeB) →
  valid_shape (mkShape sizeA (Z.to_nat <$> perm) outerSizeA outerSizeB) ∧
  (∀ s p, ∃ h', execute_expert s p bz tp h = Some h') ∧
  ∀ h', execute_parallel bz tp h h' →
    ∀ z, h' z = run_updates bz (alpha_ tp) (beta_ tp)
                  (reference_trace
                     (Transpose_unfused
                        (mkShape sizeA (Z.to_nat <$> perm) outerSizeA outerSizeB)
                        tp)) h z.
Proof.
  intros Hwf Hctor Hc Hplan Htp Hsep.
  destruct (Transpose_ctor_Ok _ _ _ _ _ _ _ _ _ _ _ _ Hwf Hctor)
    as (Hvalid & this & -> & _).
  split; [done|]. pose proof Hvalid as (Hwfs & _).
  apply (run_planned hw w
           (setNumThreads n
              (Transpose_unfused
                 (fuse (mkShape sizeA (Z.to_nat <$> perm) outerSizeA outerSizeB))
                 this)) t' tp lo par);
    [done| |done|done|..].
  - by apply fuse_sizes_nonneg.
  - by apply (fuse_trace tp).
  - by apply NoDup_reference_targets.
  - by apply reads_apart_reference.
Qed.

Lemma constructed_plan sizeA perm outerSizeA outerSizeB dim
    A (alpha : T) B beta m numThreads t n lo par :
  Transpose_ctor sizeA perm outerSizeA outerSizeB dim A alpha B beta m numThreads
    = Ok t →
  candidate (setNumThreads n t) lo par →
  ∃ t', createPlan hw w lo par (setNumThreads n t) = Ok t' ∧
        A_ t' = A ∧ B_ t' = B ∧ alpha_ t' = alpha ∧ beta_ t' = beta.
Proof.
  intros (HA & HB & Hα & Hβ & _)%Transpose_ctor_members Hc.
  destruct (createPlan_candidate hw w _ lo par Hc) as (p & Hplan & _).
  eexists. split; [exact Hplan|]. by destruct t.
Qed.

Lemma setNumThreads_same (t : Transpose T) : setNumThreads (numThreads_ t) t = t.
Proof. by destruct t. Qed.

(** Where β·b is neutral for the addition, as in exact arithmetic, the
    β = 0 variant stores what the general one would. *)
Lemma axpby_neutral (alpha beta a b : T) :
  beta_zero_neutral beta →
  axpby (el_is_zero beta) alpha beta a b = el_add (el_mul alpha a) (el_mul beta b).
Proof.
  intros Hβ. unfold axpby. destruct (el_is_zero beta) eqn:Hz; [|done].
  by rewrite Hβ.
Qed.

(** Claim C1, as far as it holds.  For a valid input, whatever candidate
    plan is created for it and however its workers are scheduled,
    [execute] ends and leaves at B[π(i)], for every index tuple [i] of A's
    logical domain, α·A[i] + β·B₀[π(i)] when β ≠ 0 and α·A[i] when β = 0:
    the β = 0 variant does not load B.  Elements are abstract and the
    equation is exact in their operations. *)
Theorem execute_computes_transposition
    (sizeA perm outerSizeA outerSizeB : list Z) (dim : Z)
    (A : Z) (alpha : T) (B : Z) (beta : T) (m : SelectionMethod) (numThreads : Z)
    (t : Transpose T) (lo : list nat) (par : list Z) (h : heap T) :
  well_formed_input sizeA perm outerSizeA outerSizeB dim →
  Transpose_ctor sizeA perm outerSizeA outerSizeB dim A alpha B beta m numThreads
    = Ok t →
  separate_buffers A B (mkShape sizeA (Z.to_nat <$> perm) outerSizeA outerSizeB) →
  candidate t lo par →
  (∃ t' h', createPlan hw w lo par t = Ok t' ∧ execute t' h = Some h') ∧
  ∀ h', runs hw w lo par t h h' →
    ∀ i, in_box i sizeA →
      let a := A + linear i (prefix_products 1 outerSizeA) in
      let b := B + linear (permute (Z.to_nat <$> perm) i)
                     (prefix_products 1 outerSizeB) in
      h' b = if el_is_zero beta then el_mul alpha (h a)
             else el_add (el_mul alpha (h a)) (el_mul beta (h b)).
Proof.
  intros Hwf Hctor Hsep Hc.
  rewrite <- (setNumThreads_same t) in Hc.
  destruct (constructed_plan _ _ _ _ _ _ _ _ _ _ _ _ _ _ _ Hctor Hc)
    as (t' & Hplan & HA & HB & Hα' & Hβ').
  destruct (constructed_runs _ _ _ _ _ _ _ _ _ _ _ t _ lo par t' t'
              (el_is_zero (beta_ t')) h Hwf Hctor Hc Hplan eq_refl)
    as (Hvalid & Hex & Hrun); [by rewrite HA, HB|].
  rewrite setNumThreads_same in Hplan.
  split.
  { destruct (Hex true true) as [h' Hh']. by exists t', h'. }
  intros h' (t'' & Hplan'' & Hh') i Hi a b.
  rewrite Hplan in Hplan''. injection Hplan'' as <-.
  rewrite (Hrun h' Hh'), Hα', Hβ'.
  pose proof Hvalid as (Hwfs & _).
  rewrite (run_updates_target _ _ _ _ _ a b).
  - reflexivity.
  - by apply NoDup_reference_targets.
  - apply reads_apart_reference; [done|]. by rewrite HA, HB.
  - apply elem_of_reference_trace; [done|]. exists i. by rewrite HA, HB.
Qed.

Lemma padding_not_written (this : Transpose T) (sh : shape) (j : list Z) :
  valid_shape sh →
  in_box j (sh_outerB sh) → ¬ in_box j (sizeB sh) →
  B_ this + linear j (prefix_products 1 (sh_outerB sh))
    ∉ (reference_trace (Transpose_unfused sh this)).*2.
Proof.
  intros Hvalid Hj Hout ([a' b'] & Hb & Hin)%list_elem_of_fmap.
  simpl in Hb. subst b'. pose proof Hvalid as (Hwfs & _).
  apply elem_of_reference_trace in Hin as (xs & Hxs & _ & Heq); [|done].
  assert (j = permute (sh_perm sh) xs) as ->.
  { apply (horner_inj _ _ (sh_outerB sh)); [done| |lia].
    by apply permuted_in_outer. }
  apply Hout. destruct Hwfs as (_ & _ & _ & Hπ & _).
  by eapply (permute_in_box _ _ xs (sh_size sh) Hπ).
Qed.

(** Claim C5.  For a valid input, a run of [execute] leaves every element
    of B that lies inside the outer sizes but outside the logical sizes of
    B exactly as it was. *)
Theorem execute_keeps_padding
    (sizeA perm outerSizeA outerSizeB : list Z) (dim : Z)
    (A : Z) (alpha : T) (B : Z) (beta : T) (m : SelectionMethod) (numThreads : Z)
    (t : Transpose T) (lo : list nat) (par : list Z) (h : heap T) :
  well_formed_input sizeA perm outerSizeA outerSizeB dim →
  Transpose_ctor sizeA perm outerSizeA outerSizeB dim A alpha B beta m numThreads
    = Ok t →
  separate_buffers A B (mkShape sizeA (Z.to_nat <$> perm) outerSizeA outerSizeB) →
  candidate t lo par →
  (∃ t' h', createPlan hw w lo par t = Ok t' ∧ execute t' h = Some h') ∧
  ∀ h', runs hw w lo par t h h' →
    ∀ j, in_box j outerSizeB →
      ¬ in_box j (permute (Z.to_nat <$> perm) sizeA) →
      let b := B + linear j (prefix_products 1 outerSizeB) in
      h' b = h b.
Proof.
  intros Hwf Hctor Hsep Hc.
  rewrite <- (setNumThreads_same t) in Hc.
  destruct (constructed_plan _ _ _ _ _ _ _ _ _ _ _ _ _ _ _ Hctor Hc)
    as (t' & Hplan & HA & HB & _).
  destruct (constructed_runs _ _ _ _ _ _ _ _ _ _ _ t _ lo par t' t'
              (el_is_zero (beta_ t')) h Hwf Hctor Hc Hplan eq_refl)
    as (Hvalid & Hex & Hrun); [by rewrite HA, HB|].
  rewrite setNumThreads_same in Hplan.
  split.
  { destruct (Hex true true) as [h' Hh']. by exists t', h'. }
  intros h' (t'' & Hplan'' & Hh') j Hj Hout b.
  rewrite Hplan in Hplan''. injection Hplan'' as <-.
  rewrite (Hrun h' Hh'). apply run_updates_other.
  unfold b. rewrite <- HB.
  by apply (padding_not_written t'
              (mkShape sizeA (Z.to_nat <$> perm) outerSizeA outerSizeB)).
Qed.

(** The same for [execute_expert] with any choice of its flags. *)
Lemma execute_expert_keeps_padding
    (sizeA perm outerSizeA outerSizeB : list Z) (dim : Z)
    (A : Z) (alpha : T) (B : Z) (beta : T) (m : SelectionMethod) (numThreads : Z)
    (t t' : Transpose T) (lo : list nat) (par : list Z) (h : heap T)
    (useStreamingStores spawnThreads betaIsZero : bool) :
  well_formed_input sizeA perm outerSizeA outerSizeB dim →
  Transpose_ctor sizeA perm outerSizeA outerSizeB dim A alpha B beta m numThreads
    = Ok t →
  separate_buffers A B (mkShape sizeA (Z.to_nat <$> perm) outerSizeA outerSizeB) →
  candidate t lo par →
  createPlan hw w lo par t = Ok t' →
  ∃ h', execute_expert useStreamingStores spawnThreads betaIsZero t' h = Some h' ∧
    ∀ j, in_box j outerSizeB →
      ¬ in_box j (permute (Z.to_nat <$> perm) sizeA) →
      h' (B + linear j (prefix_products 1 outerSizeB))
      = h (B + linear j (prefix_products 1 outerSizeB)).
Proof.
  intros Hwf Hctor Hsep Hc Hplan.
  rewrite <- (setNumThreads_same t) in Hc, Hplan.
  destruct (constructed_plan _ _ _ _ _ _ _ _ _ _ _ _ _ _ _ Hctor Hc)
    as (t'' & Hplan'' & HA & HB & _).
  rewrite Hplan in Hplan''. injection Hplan'' as <-.
  destruct (constructed_runs _ _ _ _ _ _ _ _ _ _ _ t _ lo par t' t'
              betaIsZero h Hwf Hctor Hc Hplan eq_refl)
    as (Hvalid & Hex & Hrun); [by rewrite HA, HB|].
  destruct (Hex useStreamingStores spawnThreads) as [h' Hh'].
  exists h'. split; [done|]. intros j Hj Hout.
  rewrite (Hrun h' (execute_expert_in_turn _ _ _ _ _ _ Hh')).
  apply run_updates_other. rewrite <- HB.
  by apply (padding_not_written t'
              (mkShape sizeA (Z.to_nat <$> perm) outerSizeA outerSizeB)).
Qed.

(** Claim C4.  For a valid input and two positive thread counts, the runs
    of [execute] with plans made for the one and for the other end in the
    same memory, element for element, under every schedule of the
    workers; elements are compared with Leibniz equality, which for
    floating-point types is equality of the bits. *)
Theorem thread_count_invariance
    (sizeA perm outerSizeA outerSizeB : list Z) (dim : Z)
    (A : Z) (alpha : T) (B : Z) (beta : T) (m : SelectionMethod) (numThreads : Z)
    (t : Transpose T) (n1 n2 : Z) (lo1 lo2 : list nat) (par1 par2 : list Z)
    (h : heap T) :
  well_formed_input sizeA perm outerSizeA outerSizeB dim →
  Transpose_ctor sizeA perm outerSizeA outerSizeB dim A alpha B beta m numThreads
    = Ok t →
  separate_buffers A B (mkShape sizeA (Z.to_nat <$> perm) outerSizeA outerSizeB) →
  0 < n1 → 0 < n2 →
  candidate (setNumThreads n1 t) lo1 par1 →
  candidate (setNumThreads n2 t) lo2 par2 →
  (∃ t1 h1, createPlan hw w lo1 par1 (setNumThreads n1 t) = Ok t1 ∧
            execute t1 h = Some h1) ∧
  (∃ t2 h2, createPlan hw w lo2 par2 (setNumThreads n2 t) = Ok t2 ∧
            execute t2 h = Some h2) ∧
  ∀ h1 h2,
    runs hw w lo1 par1 (setNumThreads n1 t) h h1 →
    runs hw w lo2 par2 (setNumThreads n2 t) h h2 →
    ∀ z, h1 z = h2 z.
Proof.
  intros Hwf Hctor Hsep _ _ Hc1 Hc2.
  destruct (constructed_plan _ _ _ _ _ _ _ _ _ _ _ _ _ _ _ Hctor Hc1)
    as (t1 & Hplan1 & HA1 & HB1 & Hα1 & Hβ1).
  destruct (constructed_plan _ _ _ _ _ _ _ _ _ _ _ _ _ _ _ Hctor Hc2)
    as (t2 & Hplan2 & HA2 & HB2 & Hα2 & Hβ2).
  destruct (constructed_runs _ _ _ _ _ _ _ _ _ _ _ t _ lo1 par1 t1 t1
              (el_is_zero (beta_ t1)) h Hwf Hctor Hc1 Hplan1 eq_refl)
    as (_ & Hex1 & Hrun1); [by rewrite HA1, HB1|].
  destruct (constructed_runs _ _ _ _ _ _ _ _ _ _ _ t _ lo2 par2 t2 t2
              (el_is_zero (beta_ t2)) h Hwf Hctor Hc2 Hplan2 eq_refl)
    as (_ & Hex2 & Hrun2); [by rewrite HA2, HB2|].
  split_and!.
  - destruct (Hex1 true true) as [h1 Hh1]. by exists t1, h1.
  - destruct (Hex2 true true) as [h2 Hh2]. by exists t2, h2.
  - intros h1 h2 (t1' & Hplan1' & Hh1) (t2' & Hplan2' & Hh2) z.
    rewrite Hplan1 in Hplan1'. injection Hplan1' as <-.
    rewrite Hplan2 in Hplan2'. injection Hplan2' as <-.
    rewrite (Hrun1 h1 Hh1), (Hrun2 h2 Hh2).
    unfold reference_trace. simpl.
    by rewrite Hα1, Hβ1, Hα2, Hβ2, HA1, HB1, HA2, HB2.
Qed.

(** The plan is made once and serves other buffers and scalars: after the
    setters have replaced α, β and both pointers, [execute] computes the
    transposition of the new A into the new B. *)
Lemma plan_reuse
    (sizeA perm outerSizeA outerSizeB : list Z) (dim : Z)
    (A : Z) (alpha : T) (B : Z) (beta : T) (m : SelectionMethod) (numThreads : Z)
    (t t' : Transpose T) (lo : list nat) (par : list Z)
    (A' B' : Z) (alpha' beta' : T) (h : heap T) :
  well_formed_input sizeA perm outerSizeA outerSizeB dim →
  Transpose_ctor sizeA perm outerSizeA outerSizeB dim A alpha B beta m numThreads
    = Ok t →
  candidate t lo par →
  createPlan hw w lo par t = Ok t' →
  separate_buffers A' B' (mkShape sizeA (Z.to_nat <$> perm) outerSizeA outerSizeB) →
  ∃ h', execute (retarget alpha' beta' A' B' t') h = Some h' ∧
    ∀ i, in_box i sizeA →
      let a := A' + linear i (prefix_products 1 outerSizeA) in
      let b := B' + linear (permute (Z.to_nat <$> perm) i)
                      (prefix_products 1 outerSizeB) in
      h' b = if el_is_zero beta' then el_mul alpha' (h a)
             else el_add (el_mul alpha' (h a)) (el_mul beta' (h b)).
Proof.
  intros Hwf Hctor Hc Hplan Hsep.
  rewrite <- (setNumThreads_same t) in Hc, Hplan.
  destruct (constructed_runs _ _ _ _ _ _ _ _ _ _ _ t _ lo par t'
              (retarget alpha' beta' A' B' t')
              (el_is_zero beta') h Hwf Hctor Hc Hplan eq_refl Hsep)
    as (Hvalid & Hex & Hrun).
  destruct (Hex true true) as [h' Hh']. exists h'. split; [done|].
  intros i Hi a b.
  rewrite (Hrun h' (execute_expert_in_turn _ _ _ _ _ _ Hh')).
  pose proof Hvalid as (Hwfs & _).
  rewrite (run_updates_target _ _ _ _ _ a b).
  - reflexivity.
  - by apply NoDup_reference_targets.
  - by apply reads_apart_reference.
  - apply elem_of_reference_trace; [done|]. by exists i.
Qed.
End Claims.

(** ** C3: fusion *)

Section FusionClaim.
Context {T : Type} `{ElementTraits T}.
Variables (hw : arch) (w : N).

Lemma shape_runs (this : Transpose T) (sh sh0 : shape) lo par h :
  valid_shape sh0 →
  separate_buffers (A_ this) (B_ this) sh0 →
  Forall (λ s, 0 ≤ s) (sh_size sh) →
  reference_trace (Transpose_unfused sh this)
    ≡ₚ reference_trace (Transpose_unfused sh0 this) →
  candidate (Transpose_unfused sh this) lo par →
  (∃ t' h', createPlan hw w lo par (Transpose_unfused sh this) = Ok t' ∧
            execute t' h = Some h') ∧
  ∀ h', runs hw w lo par (Transpose_unfused sh this) h h' →
    ∀ z, h' z = run_updates (el_is_zero (beta_ this)) (alpha_ this) (beta_ this)
                  (reference_trace (Transpose_unfused sh0 this)) h z.
Proof.
  intros Hvalid Hsep Hsize Hperm Hc.
  destruct (createPlan_candidate hw w _ lo par Hc) as (p & Hplan & _).
  destruct (run_planned hw w (Transpose_unfused sh this) _ _ lo par
              (reference_trace (Transpose_unfused sh0 this))
              (el_is_zero (beta_ this)) h Hc Hsize Hplan eq_refl Hperm)
    as [Hex Hrun].
  { by apply NoDup_reference_targets. }
  { by apply reads_apart_reference. }
  split.
  - destruct (Hex true true) as [h' Hh']. eexists _, h'. split; [exact Hplan|done].
  - intros h' (t' & Hplan' & Hh') z.
    rewrite Hplan in Hplan'. injection Hplan' as <-.
    by rewrite (Hrun h' Hh').
Qed.

(** Claim C3.  When the pair [(k, k+1)] of a valid shape is fusible, the
    shape with the pair fused has one axis less, and the object built from
    it ends its runs in the same memory, element for element, as the
    object built from the shape as given. *)
Theorem fusion_equivalence (this : Transpose T) (sh : shape) (k : nat)
    (lo lo' : list nat) (par par' : list Z) (h : heap T) :
  valid_shape sh →
  fusible sh k = true →
  separate_buffers (A_ this) (B_ this) sh →
  candidate (Transpose_unfused (fuse_pair k sh) this) lo par →
  candidate (Transpose_unfused sh this) lo' par' →
  S (rank (fuse_pair k sh)) = rank sh ∧
  (∃ t1 h1, createPlan hw w lo par (Transpose_unfused (fuse_pair k sh) this) = Ok t1 ∧
            execute t1 h = Some h1) ∧
  (∃ t2 h2, createPlan hw w lo' par' (Transpose_unfused sh this) = Ok t2 ∧
            execute t2 h = Some h2) ∧
  ∀ h1 h2,
    runs hw w lo par (Transpose_unfused (fuse_pair k sh) this) h h1 →
    runs hw w lo' par' (Transpose_unfused sh this) h h2 →
    ∀ z, h1 z = h2 z.
Proof.
  intros Hvalid Hfus Hsep Hc Hc'. pose proof Hvalid as (Hwf & _).
  assert (Forall (λ s, 0 ≤ s) (sh_size (fuse_pair k sh))) as Hs1
    by (by apply (wf_fuse_pair sh k Hwf Hfus)).
  assert (Forall (λ s, 0 ≤ s) (sh_size sh)) as Hs2
    by (by destruct Hwf as (_ & _ & _ & _ & ?)).
  destruct (shape_runs this (fuse_pair k sh) sh lo par h Hvalid Hsep Hs1
              (reference_trace_fuse_pair this sh k Hwf Hfus) Hc)
    as [Hex1 Hrun1].
  destruct (shape_runs this sh sh lo' par' h Hvalid Hsep Hs2 (reflexivity _) Hc')
    as [Hex2 Hrun2].
  split_and!; [|done..|].
  - rewrite (rank_fuse_pair sh k Hwf Hfus).
    pose proof (fusible_lt sh k Hwf Hfus). lia.
  - intros h1 h2 Hh1 Hh2 z. by rewrite (Hrun1 h1 Hh1), (Hrun2 h2 Hh2).
Qed.

(** The same for all the rounds of [fuseIndices] together; afterwards no
    fusible pair is left. *)
Lemma fuse_equivalence (this : Transpose T) (sh : shape)
    (lo lo' : list nat) (par par' : list Z) (h h1 h2 : heap T) :
  valid_shape sh →
  separate_buffers (A_ this) (B_ this) sh →
  candidate (Transpose_unfused (fuse sh) this) lo par →
  candidate (Transpose_unfused sh this) lo' par' →
  runs hw w lo par (Transpose_unfused (fuse sh) this) h h1 →
  runs hw w lo' par' (Transpose_unfused sh this) h h2 →
  find_fusible (fuse sh) (rank (fuse sh)) = None ∧ ∀ z, h1 z = h2 z.
Proof.
  intros Hvalid Hsep Hc Hc' Hh1 Hh2. pose proof Hvalid as (Hwf & _).
  split; [by apply fuse_rounds_complete|].
  assert (Forall (λ s, 0 ≤ s) (sh_size sh)) as Hs2
    by (by destruct Hwf as (_ & _ & _ & _ & ?)).
  destruct (shape_runs this (fuse sh) sh lo par h Hvalid Hsep
              (fuse_sizes_nonneg sh Hwf) (fuse_trace this sh Hwf) Hc)
    as [_ Hrun1].
  destruct (shape_runs this sh sh lo' par' h Hvalid Hsep Hs2 (reflexivity _) Hc')
    as [_ Hrun2].
  intros z. by rewrite (Hrun1 h1 Hh1), (Hrun2 h2 Hh2).
Qed.
End FusionClaim.

(** ** The claims at concrete inputs *)

Lemma execute_computes_transposition_witness :
  let h := with_buffer 0 [1; 3; 5; 0; 2; 4; 6; 0]%float (λ _, nan) in
  ∃ t,
    Transpose_ctor [3; 2] [1; 0] [4; 2] [2; 3] 2 0 2%float 100 0%float ESTIMATE 2
      = Ok t ∧
    (∃ t' h', createPlan AVX 64 [1; 0]%nat [2; 1] t = Ok t' ∧
              execute t' h = Some h') ∧
    ∀ h', runs AVX 64 [1; 0]%nat [2; 1] t h h' →
      ∀ i, in_box i [3; 2] →
        let a := 0 + linear i (prefix_products 1 [4; 2]) in
        let b := 100 + linear (permute (Z.to_nat <$> [1; 0]) i)
                         (prefix_products 1 [2; 3]) in
        h' b = if el_is_zero 0%float then el_mul 2%float (h a)
               else el_add (el_mul 2%float (h a)) (el_mul 0%float (h b)).
Proof.
  intros h. eexists. split; [vm_compute; reflexivity|].
  apply (execute_computes_transposition AVX 64
           [3; 2] [1; 0] [4; 2] [2; 3] 2 0 2%float 100 0%float ESTIMATE 2).
  - split; [done|]. repeat constructor; lia.
  - vm_compute. reflexivity.
  - left. vm_compute. discriminate.
  - split_and!; [apply perm_swap|done|repeat constructor; lia|
                 vm_compute; discriminate|vm_compute; discriminate].
Defined.

Lemma exact_elements_neutral (beta : Z) : beta_zero_neutral beta.
Proof.
  intros Hz x y. destruct beta; [|done..]. simpl. lia.
Qed.

Lemma ieee_double_not_neutral : ¬ beta_zero_neutral 0%float.
Proof.
  intros Hβ. specialize (Hβ eq_refl 1%float nan).
  apply (f_equal is_nan) in Hβ. vm_compute in Hβ. discriminate.
Qed.

(** The claim's equation does not hold for β = 0 on IEEE elements.  Sizes
    (3,2), π = (1,0), α = 1, β = 0, A = 1 3 5 2 4 6 and a B that holds NaN:
    [execute] stores A[0,0] = 1 at B[0,0] without loading B, where
    α·A[0,0] + β·B₀[0,0] = 1 + 0·NaN is NaN, which no tolerance brings
    back to 1. *)
Lemma beta_zero_does_not_load_B :
  let h := with_buffer 0 [1; 3; 5; 2; 4; 6]%float (λ _, nan) in
  ∃ t h',
    create_plan AVX 64 [0; 1]%nat [1; 1] [1; 0] 2 1%float 0 [3; 2] [3; 2]
      0%float 100 [2; 3] ESTIMATE 1 = Some t ∧
    execute t h = Some h' ∧
    h' 100 = 1%float ∧
    el_add (el_mul 1%float (h 0)) (el_mul 0%float (h 100)) = nan ∧
    h' 100 ≠ el_add (el_mul 1%float (h 0)) (el_mul 0%float (h 100)).
Proof.
  do 2 eexists. split; [vm_compute; reflexivity|].
  split; [vm_compute; reflexivity|].
  split; [vm_compute; reflexivity|].
  split; [vm_compute; reflexivity|].
  intros Heq. apply (f_equal is_nan) in Heq. vm_compute in Heq. discriminate.
Qed.

Lemma execute_keeps_padding_witness :
  ∃ t,
    Transpose_ctor [3; 2] [1; 0] [3; 2] [4; 3] 2 0 2 100 3 ESTIMATE 1 = Ok t ∧
    (∃ t' h', createPlan AVX 64 [0; 1]%nat [1; 1] t = Ok t' ∧
              execute t' (λ z, z) = Some h') ∧
    ∀ h', runs AVX 64 [0; 1]%nat [1; 1] t (λ z, z) h' →
      ∀ j, in_box j [4; 3] →
        ¬ in_box j (permute (Z.to_nat <$> [1; 0]) [3; 2]) →
        let b := 100 + linear j (prefix_products 1 [4; 3]) in
        h' b = b.
Proof.
  eexists. split; [vm_compute; reflexivity|].
  apply (execute_keeps_padding AVX 64
           [3; 2] [1; 0] [3; 2] [4; 3] 2 0 2 100 3 ESTIMATE 1).
  - split; [done|]. repeat constructor; lia.
  - vm_compute. reflexivity.
  - left. vm_compute. discriminate.
  - split_and!; [done|done|repeat constructor; lia|
                 vm_compute; discriminate|vm_compute; discriminate].
Defined.

Lemma thread_count_invariance_witness :
  ∃ t,
    Transpose_ctor [3; 2] [1; 0] [3; 2] [2; 3] 2 0 2 100 3 ESTIMATE 1 = Ok t ∧
    (∃ t1 h1, createPlan AVX 64 [0; 1]%nat [1; 1] (setNumThreads 1 t) = Ok t1 ∧
              execute t1 (λ z, z) = Some h1) ∧
    (∃ t2 h2, createPlan AVX 64 [1; 0]%nat [2; 2] (setNumThreads 4 t) = Ok t2 ∧
              execute t2 (λ z, z) = Some h2) ∧
    ∀ h1 h2,
      runs AVX 64 [0; 1]%nat [1; 1] (setNumThreads 1 t) (λ z, z) h1 →
      runs AVX 64 [1; 0]%nat [2; 2] (setNumThreads 4 t) (λ z, z) h2 →
      ∀ z, h1 z = h2 z.
Proof.
  eexists. split; [vm_compute; reflexivity|].
  apply (thread_count_invariance AVX 64
           [3; 2] [1; 0] [3; 2] [2; 3] 2 0 2 100 3 ESTIMATE 1).
  - split; [done|]. repeat constructor; lia.
  - vm_compute. reflexivity.
  - left. vm_compute. discriminate.
  - lia.
  - lia.
  - split_and!; [done|done|repeat constructor; lia|
                 vm_compute; discriminate|vm_compute; discriminate].
  - split_and!; [apply perm_swap|done|repeat constructor; lia|
                 vm_compute; discriminate|vm_compute; discriminate].
Defined.

Lemma fusion_equivalence_witness :
  let this := mkTranspose 0 100 2 3 (-1) [] [] [] [] [] [] 2 (-1) None ESTIMATE (Some 1) in
  let sh := mkShape [2; 3; 4] [1; 2; 0]%nat [2; 3; 4] [4; 2; 3] in
  fusible sh 0 = true ∧
  S (rank (fuse_pair 0 sh)) = rank sh ∧
  (∃ t1 h1, createPlan AVX 64 [1; 0]%nat [2; 1]
              (Transpose_unfused (fuse_pair 0 sh) this) = Ok t1 ∧
            execute t1 (λ z, z) = Some h1) ∧
  (∃ t2 h2, createPlan AVX 64 [2; 0; 1]%nat [1; 2; 1]
              (Transpose_unfused sh this) = Ok t2 ∧
            execute t2 (λ z, z) = Some h2) ∧
  ∀ h1 h2,
    runs AVX 64 [1; 0]%nat [2; 1] (Transpose_unfused (fuse_pair 0 sh) this) (λ z, z) h1 →
    runs AVX 64 [2; 0; 1]%nat [1; 2; 1] (Transpose_unfused sh this) (λ z, z) h2 →
    ∀ z, h1 z = h2 z.
Proof.
  intros this sh. split; [reflexivity|].
  apply (fusion_equivalence AVX 64 this sh 0).
  - assert ([1; 2; 0]%nat ≡ₚ [0; 1; 2]%nat) as Hp
      by (etrans; [apply perm_skip, perm_swap|apply perm_swap]).
    split_and!; [|repeat constructor; lia|
                 repeat constructor; vm_compute; discriminate].
    unfold wf_shape.
    split_and!; [done|done|done|exact Hp|repeat constructor; lia].
  - reflexivity.
  - left. vm_compute. discriminate.
  - split_and!; [apply perm_swap|done|repeat constructor; lia|
                 vm_compute; discriminate|vm_compute; discriminate].
  - assert ([2; 0; 1]%nat ≡ₚ [0; 1; 2]%nat) as Hp
      by (etrans; [apply perm_swap|apply perm_skip, perm_swap]).
    split_and!; [exact Hp|done|repeat constructor; lia|
                 vm_compute; discriminate|vm_compute; discriminate].
Defined.

(** ** The scenarios of the specification *)

(** Scenario 1: sizes (3,2), π = (1,0), α = 1, β = 0.  A, read with axis 0
    fastest, holds 1 3 5 2 4 6; B then holds 1 2 3 4 5 6. *)
Example scenario_transpose_2d :
  (t ← create_plan AVX 64 [0; 1]%nat [1; 1] [1; 0] 2 1 0 [3; 2] [3; 2] 0 100 [2; 3]
         ESTIMATE 1;
   h ← execute t (with_buffer 0 [1; 3; 5; 2; 4; 6] (λ _, 0));
   Some (read_buffer h 100 6))
  = Some [1; 2; 3; 4; 5; 6].
Proof. vm_compute. reflexivity. Qed.

(** Scenario 2 on two workers: sizes (4,4,4), π = (2,0,1), α = 2, β = 3,
    A[i,j,k] = i + 4j + 16k, B₀ = 100 everywhere; sampled positions. *)
Example scenario_3d_two_workers :
  (t ← create_plan AVX 64 [1; 0]%nat [2; 1] [2; 0; 1] 3 2 0 [4; 4; 4] [4; 4; 4]
         3 1000 [4; 4; 4] ESTIMATE 2;
   h ← execute t (with_buffer 0 (seqZ 0 64) (λ _, 100));
   Some (dim_ t, sizeA_ t, read_buffer h 1000 3, h (1000 + 63), h 999))
  = Some (2, [4; 16], [300; 308; 316], 2 * 63 + 300, 100).
Proof. vm_compute. reflexivity. Qed.

(** Scenario 4: sizes (8,8,8), identity permutation, no padding: the
    normalised rank is 1 and the size 512. *)
Example scenario_fusion :
  (t ← create_plan AVX 64 [0]%nat [1] [0; 1; 2] 3 1 0 [8; 8; 8] [8; 8; 8]
         0 1000 [8; 8; 8] ESTIMATE 1;
   Some (dim_ t, sizeA_ t, perm_ t))
  = Some (1, [512], [0]%nat).
Proof. vm_compute. reflexivity. Qed.

(** Scenario 5: sizes (5,5) in an A of outer sizes (8,5), π = (1,0),
    α = 1, β = 0.  With A[i + 8j] = i + 8j, B holds the transpose, and no
    address of A's padding is read. *)
Example scenario_padded :
  (t ← create_plan AVX 64 [0; 1]%nat [1; 1] [1; 0] 2 1 0 [5; 5] [8; 5] 0 100 [5; 5]
         ESTIMATE 1;
   h ← execute t (with_buffer 0 (seqZ 0 40) (λ _, 0));
   uss ← traces t;
   Some (read_buffer h 100 10,
         forallb (λ u, bool_decide (u.1 `mod` 8 < 5)) (mjoin uss)))
  = Some ([0; 8; 16; 24; 32; 1; 9; 17; 25; 33], true).
Proof. vm_compute. reflexivity. Qed.

(** * Object lifetime and further properties of the header *)

(** ** Chains of nodes in the free store *)

Lemma chain_det nodes o l l' : chain nodes o l → chain nodes o l' → l = l'.
Proof.
  intros Hc. revert l'. induction Hc as [|p this l Hp _ IH]; intros l' Hc'.
  - by inv Hc'.
  - inv Hc'. f_equal. apply IH. congruence.
Qed.

Lemma chain_from_member nodes o l q :
  chain nodes o l → q ∈ l → ∃ l1 l2, l = l1 ++ q :: l2 ∧ chain nodes (Some q) (q :: l2).
Proof.
  induction 1 as [|p this l Hp Hc IH]; intros Hq.
  - by apply elem_of_nil in Hq.
  - apply elem_of_cons in Hq as [->|Hq].
    + exists [], l. split; [done|]. by econstructor.
    + destruct (IH Hq) as (l1 & l2 & -> & Hc2). by exists (p :: l1), l2.
Qed.

Lemma chain_NoDup nodes o l : chain nodes o l → NoDup l.
Proof.
  induction 1 as [|p this l Hp Hc IH]; constructor; [|done].
  intros Hin.
  destruct (chain_from_member _ _ _ _ Hc Hin) as (l1 & l2 & -> & Hc2).
  assert (p :: l1 ++ p :: l2 = p :: l2) as Heq.
  { eapply chain_det; [|exact Hc2]. by econstructor. }
  apply (f_equal length) in Heq. simpl in Heq. rewrite length_app in Heq.
  simpl in Heq. lia.
Qed.

Lemma chain_live nodes o l : chain nodes o l → Forall (λ q, is_Some (nodes !! q)) l.
Proof. induction 1; constructor; eauto. Qed.

Lemma chain_length nodes o l : chain nodes o l → (length l ≤ size nodes)%nat.
Proof.
  intros Hc.
  assert (list_to_set (C:=gset ptr) l ⊆ dom nodes) as Hsub.
  { intros q Hq. apply elem_of_list_to_set in Hq. apply elem_of_dom.
    pose proof (chain_live _ _ _ Hc) as Hl.
    by apply (proj1 (Forall_forall _ _) Hl). }
  apply subseteq_size in Hsub.
  rewrite size_list_to_set in Hsub by (by eapply chain_NoDup).
  by rewrite size_dom in Hsub.
Qed.

Lemma lookup_release l nodes q :
  release l nodes !! q = if decide (q ∈ l) then None else nodes !! q.
Proof.
  induction l as [|p l IH].
  - rewrite decide_False by apply not_elem_of_nil. reflexivity.
  - change (release (p :: l) nodes) with (delete p (release l nodes)).
    destruct (decide (q = p)) as [->|Hne].
    + rewrite lookup_delete_eq, decide_True; [done|]. apply list_elem_of_here.
    + rewrite lookup_delete_ne by done. rewrite IH.
      destruct (decide (q ∈ l)) as [Hq|Hq].
      * rewrite decide_True; [done|]. by apply list_elem_of_further.
      * rewrite decide_False; [done|]. rewrite elem_of_cons. tauto.
Qed.

Lemma release_app l1 l2 nodes : release (l1 ++ l2) nodes = release l1 (release l2 nodes).
Proof. unfold release. by rewrite foldr_app. Qed.

Lemma release_delete p l nodes : release l (delete p nodes) = release (p :: l) nodes.
Proof.
  apply map_eq. intros q. rewrite !lookup_release.
  destruct (decide (q = p)) as [->|Hne].
  - rewrite lookup_delete_eq.
    rewrite (decide_True (P:=p ∈ p :: l)) by apply list_elem_of_here.
    by destruct (decide (p ∈ l)).
  - rewrite lookup_delete_ne by done.
    destruct (decide (q ∈ l)) as [Hq|Hq].
    + rewrite decide_True; [done|]. by apply list_elem_of_further.
    + rewrite decide_False; [done|]. rewrite elem_of_cons. tauto.
Qed.

Lemma chain_release nodes L o l :
  chain (release L nodes) o l ↔ chain nodes o l ∧ l ## L.
Proof.
  split.
  - induction 1 as [|p this l Hp Hc [IH1 IH2]].
    + split; [constructor|]. intros q Hq. by apply elem_of_nil in Hq.
    + rewrite lookup_release in Hp. destruct (decide (p ∈ L)); [done|].
      split; [by econstructor|].
      intros q Hq HL. apply elem_of_cons in Hq as [->|Hq]; [done|].
      by apply (IH2 q).
  - intros [Hc Hd]. induction Hc as [|p this l Hp Hc IH]; [constructor|].
    econstructor.
    + rewrite lookup_release, decide_False; [done|].
      intros HL. apply (Hd p); [apply list_elem_of_here|done].
    + apply IH. intros q Hq. apply Hd. by apply list_elem_of_further.
Qed.

Lemma chain_delete nodes p o l :
  chain (delete p nodes) o l ↔ chain nodes o l ∧ p ∉ l.
Proof.
  change (delete p nodes) with (release [p] nodes). rewrite chain_release.
  split; intros [Hc Hd]; (split; [done|]).
  - intros Hp. apply (Hd p Hp). apply list_elem_of_here.
  - intros q Hq Hq'. apply list_elem_of_singleton in Hq' as ->. done.
Qed.

Lemma delete_ComputeNode_chain fuel nodes p l :
  chain nodes (Some p) l → (length l ≤ fuel)%nat →
  delete_ComputeNode fuel p nodes = Some (release l nodes).
Proof.
  revert nodes p l. induction fuel as [|fuel IH]; intros nodes p l Hc Hlen.
  - inversion Hc; subst. simpl in Hlen. lia.
  - pose proof (chain_NoDup _ _ _ Hc) as Hnd.
    inversion Hc as [|p' this l' Hp Hc']; subst.
    apply NoDup_cons in Hnd as [Hpl _].
    simpl. rewrite Hp. unfold ComputeNode_dtor.
    destruct (obj_next this) as [q|] eqn:Hq.
    + rewrite (IH _ _ l').
      * by rewrite release_delete.
      * by apply chain_delete.
      * simpl in Hlen. lia.
    + inversion Hc'; subst. done.
Qed.

Lemma delete_ComputeNode_inv fuel nodes p nodes' :
  delete_ComputeNode fuel p nodes = Some nodes' →
  ∃ l, chain nodes (Some p) l ∧ nodes' = release l nodes.
Proof.
  revert nodes p. induction fuel as [|fuel IH]; intros nodes p; [done|].
  simpl. destruct (nodes !! p) as [this|] eqn:Hp; [|done].
  unfold ComputeNode_dtor. destruct (obj_next this) as [q|] eqn:Hq.
  - intros Hd. apply IH in Hd as (l & Hc & ->).
    apply chain_delete in Hc as [Hc Hpl].
    exists (p :: l). split.
    + econstructor; [done|]. by rewrite Hq.
    + by rewrite release_delete.
  - intros [= <-]. exists [p]. split; [|done].
    econstructor; [done|]. rewrite Hq. constructor.
Qed.

Lemma delete_node_chain nodes p l :
  chain nodes (Some p) l → delete_node p nodes = Some (release l nodes).
Proof.
  intros Hc. apply delete_ComputeNode_chain; [done|]. by eapply chain_length.
Qed.

Lemma destroy_node_chain nodes this l :
  chain nodes (obj_next this) l → destroy_node this nodes = Some (release l nodes).
Proof.
  unfold destroy_node, ComputeNode_dtor. intros Hc.
  destruct (obj_next this) as [q|].
  - by apply delete_node_chain.
  - by inv Hc.
Qed.

Lemma destroy_node_inv nodes this nodes' :
  destroy_node this nodes = Some nodes' →
  ∃ l, chain nodes (obj_next this) l ∧ nodes' = release l nodes.
Proof.
  unfold destroy_node, ComputeNode_dtor.
  destruct (obj_next this) as [q|].
  - apply delete_ComputeNode_inv.
  - intros [= <-]. exists []. split; [constructor|done].
Qed.

Lemma destroy_elements_chains nodes cells ls :
  separate_chains nodes cells ls →
  destroy_elements cells nodes = Some (release (concat ls) nodes).
Proof.
  intros [HF Hnd]. induction HF as [|this l cells ls Hc HF IH]; [done|].
  simpl in *. apply NoDup_app in Hnd as (_ & Hdisj & Hnd).
  rewrite (IH Hnd). simpl. rewrite release_app.
  apply destroy_node_chain. apply chain_release. split; [done|].
  intros q Hq. by apply Hdisj.
Qed.

Lemma destroy_elements_inv nodes cells nodes' :
  destroy_elements cells nodes = Some nodes' →
  ∃ ls, separate_chains nodes cells ls ∧ nodes' = release (concat ls) nodes.
Proof.
  revert nodes'. induction cells as [|this cells IH]; intros nodes'; simpl.
  - intros [= <-]. exists []. split; [|done]. split; [constructor|]. simpl. constructor.
  - destruct (destroy_elements cells nodes) as [nodes1|] eqn:Hd; [|done]. simpl.
    destruct (IH _ eq_refl) as (ls & [HF Hnd] & ->).
    intros Hn. apply destroy_node_inv in Hn as (l & Hc & ->).
    apply chain_release in Hc as [Hc Hdisj].
    exists (l :: ls). split; [split|].
    + by constructor.
    + simpl. apply NoDup_app. split_and!; [by eapply chain_NoDup| |done].
      intros q Hq Hq'. exact (Hdisj q Hq Hq').
    + simpl. by rewrite release_app.
Qed.

Lemma delete_ComputeNode_fuel fuel nodes p :
  (size nodes ≤ fuel)%nat → delete_ComputeNode fuel p nodes = delete_node p nodes.
Proof.
  intros Hfuel.
  destruct (delete_node p nodes) as [nodes'|] eqn:Hd.
  - apply delete_ComputeNode_inv in Hd as (l & Hc & ->).
    apply delete_ComputeNode_chain; [done|].
    pose proof (chain_length _ _ _ Hc). lia.
  - destruct (delete_ComputeNode fuel p nodes) as [nodes'|] eqn:Hd'; [|done].
    apply delete_ComputeNode_inv in Hd' as (l & Hc & ->).
    by rewrite (delete_node_chain _ _ _ Hc) in Hd.
Qed.

Lemma destroy_elements_default w n nodes :
  destroy_elements (replicate n (ComputeNode_obj_ctor w)) nodes = Some nodes.
Proof. induction n as [|n IH]; [done|]. simpl. by rewrite IH. Qed.

Lemma represents_default w nodes :
  represents nodes (ComputeNode_obj_ctor w) (ComputeNode_ctor w).
Proof. by repeat split. Qed.

(** ** Destructors *)

(** Property X1.  [delete p] on the head of a chain of live nodes that ends
    in [nullptr] is defined and ends the lifetime of exactly the nodes of
    the chain: they are gone afterwards and every other object is as it
    was. *)
Theorem delete_node_releases_chain nodes p l :
  chain nodes (Some p) l →
  ∃ nodes', delete_node p nodes = Some nodes' ∧
    ∀ q, nodes' !! q = if decide (q ∈ l) then None else nodes !! q.
Proof.
  intros Hc. exists (release l nodes). split.
  - by apply delete_node_chain.
  - intros q. apply lookup_release.
Qed.

(** Property X2.  [delete p] is defined exactly when following [next] from
    [p] reaches [nullptr] through live nodes.  In particular it is undefined
    behaviour when [p] is dangling and when a node is its own successor. *)
Theorem delete_node_defined nodes p :
  (is_Some (delete_node p nodes) ↔ ∃ l, chain nodes (Some p) l) ∧
  (nodes !! p = None → delete_node p nodes = None) ∧
  (∀ this, nodes !! p = Some this → obj_next this = Some p →
     delete_node p nodes = None).
Proof.
  assert (is_Some (delete_node p nodes) ↔ ∃ l, chain nodes (Some p) l) as Hiff.
  { split.
    - intros [nodes' Hd]. apply delete_ComputeNode_inv in Hd as (l & Hc & _). eauto.
    - intros [l Hc]. rewrite (delete_node_chain _ _ _ Hc). eauto. }
  split; [done|]. split.
  - intros Hp. apply eq_None_not_Some. rewrite Hiff. intros [l Hc].
    inversion Hc; subst. congruence.
  - intros this Hp Hnext. apply eq_None_not_Some. rewrite Hiff. intros [l Hc].
    pose proof (chain_NoDup _ _ _ Hc) as Hnd.
    inversion Hc as [|p' this' l' Hp' Hc']; subst.
    rewrite Hp in Hp'. injection Hp' as <-. rewrite Hnext in Hc'.
    inversion Hc'; subst. apply NoDup_cons in Hnd as [Hin _].
    apply Hin, list_elem_of_here.
Qed.

(** Property X3.  [~Plan()] on a plan whose root nodes head chains that
    share no node releases the array and every node of every chain, and
    nothing else. *)
Theorem Plan_dtor_releases_trees this s a cells ls :
  obj_rootNodes_ this = Some a →
  live_arrays s !! a = Some cells →
  separate_chains (live_nodes s) cells ls →
  ∃ s', Plan_dtor this s = Some s' ∧
    live_arrays s' = delete a (live_arrays s) ∧
    ∀ q, live_nodes s' !! q =
           if decide (q ∈ concat ls) then None else live_nodes s !! q.
Proof.
  intros Ha Hcells Hsep. unfold Plan_dtor, delete_ComputeNode_array.
  rewrite Ha, Hcells, (destroy_elements_chains _ _ _ Hsep).
  eexists. split; [done|]. split; [done|].
  intros q. apply lookup_release.
Qed.

(** Property X4.  [~Plan()] is defined exactly when [rootNodes_] is null, or
    is a live array whose elements head chains of live nodes that share no
    node.  Two root nodes that reach a common successor, a dangling [next],
    and an array that was released before all make it undefined; a
    default-constructed plan owns nothing and its destructor leaves the
    store as it is. *)
Theorem Plan_dtor_defined this s :
  (is_Some (Plan_dtor this s) ↔
   obj_rootNodes_ this = None ∨
   ∃ a cells ls, obj_rootNodes_ this = Some a ∧ live_arrays s !! a = Some cells ∧
     separate_chains (live_nodes s) cells ls) ∧
  Plan_dtor Plan_obj_default s = Some s.
Proof.
  split; [|done]. unfold Plan_dtor, delete_ComputeNode_array. split.
  - intros [s' Hd]. destruct (obj_rootNodes_ this) as [a|]; [|by left].
    right. destruct (live_arrays s !! a) as [cells|] eqn:Hcells; [|done].
    destruct (destroy_elements cells (live_nodes s)) as [nodes'|] eqn:He; [|done].
    apply destroy_elements_inv in He as (ls & Hsep & _).
    by exists a, cells, ls.
  - intros [->|(a & cells & ls & -> & -> & Hsep)]; [eauto|].
    rewrite (destroy_elements_chains _ _ _ Hsep). eauto.
Qed.

(** Property X5.  Constructing a plan and destroying it again leaves the
    free store exactly as it was before the constructor ran: the array is
    released and no other object is touched. *)
Theorem Plan_obj_ctor_dtor w loopOrder numThreadsAtLoop s this s' :
  Plan_obj_ctor w loopOrder numThreadsAtLoop s = Ok (this, s') →
  Plan_dtor this s' = Some s.
Proof.
  unfold Plan_obj_ctor, new_ComputeNode_array_obj.
  destruct (decide (_ < 0)); [done|]. simpl. intros [= <- <-].
  unfold Plan_dtor, delete_ComputeNode_array. simpl.
  rewrite lookup_insert_eq, destroy_elements_default.
  rewrite delete_insert_id.
  - by destruct s.
  - apply not_elem_of_dom. apply is_fresh.
Qed.

(** Property X6.  The destructor leaves the pointer it released in the
    object, and the class defines no copy operation of its own: once one
    plan object has been destroyed, destroying another one that holds the
    same non-null [rootNodes_] is undefined behaviour. *)
Theorem Plan_dtor_twice this this' s s' :
  is_Some (obj_rootNodes_ this) →
  obj_rootNodes_ this' = obj_rootNodes_ this →
  Plan_dtor this s = Some s' →
  Plan_dtor this' s' = None.
Proof.
  intros [a Ha] Heq. unfold Plan_dtor, delete_ComputeNode_array.
  rewrite Heq, Ha.
  destruct (live_arrays s !! a) as [cells|]; [|done].
  destruct (destroy_elements cells (live_nodes s)) as [nodes'|]; [|done].
  intros [= <-]. simpl. by rewrite lookup_delete_eq.
Qed.

(** Property X7.  The constructor acting on the free store and the
    constructor on values agree: they raise the same exception, or the
    object built in memory holds the value the other one returns, in an
    array at an address that was not in use, with every earlier allocation
    left as it was. *)
Theorem Plan_obj_ctor_represents w loopOrder numThreadsAtLoop s :
  match Plan_obj_ctor w loopOrder numThreadsAtLoop s,
        Plan_ctor w loopOrder numThreadsAtLoop with
  | Ok (this, s'), Ok p =>
      Plan_represents s' this p ∧
      live_nodes s' = live_nodes s ∧
      ∃ a cells, obj_rootNodes_ this = Some a ∧ live_arrays s !! a = None ∧
        live_arrays s' = <[a := cells]> (live_arrays s)
  | Throw e, Throw e' => e = e'
  | _, _ => False
  end.
Proof.
  unfold Plan_obj_ctor, Plan_ctor, new_ComputeNode_array_obj, new_ComputeNode_array.
  destruct (decide (_ < 0)); [done|]. simpl.
  split; [|split; [done|]].
  - unfold Plan_represents. simpl. split_and!; try done.
    eexists. split; [apply lookup_insert_eq|].
    apply Forall2_replicate. apply represents_default.
  - do 2 eexists. split; [done|]. split; [|done].
    apply not_elem_of_dom. apply is_fresh.
Qed.

(** ** Values and objects *)

Lemma size_release l nodes :
  NoDup l → Forall (λ q, is_Some (nodes !! q)) l →
  (size (release l nodes) + length l = size nodes)%nat.
Proof.
  induction 1 as [|p l Hp Hnd IH]; intros Hlive; [simpl; lia|].
  apply Forall_cons in Hlive as [Hlp Hlive].
  change (release (p :: l) nodes) with (delete p (release l nodes)).
  rewrite map_size_delete_Some.
  - specialize (IH Hlive). simpl.
    assert (0 < size (release l nodes))%nat; [|lia].
    assert (is_Some (release l nodes !! p)) as [x Hx].
    { by rewrite lookup_release, decide_False. }
    destruct (decide (size (release l nodes) = 0%nat)) as [Hz|]; [|lia].
    apply map_size_empty_inv in Hz. by rewrite Hz, lookup_empty in Hx.
  - by rewrite lookup_release, decide_False.
Qed.

Lemma represents_chain nodes this n :
  represents nodes this n →
  ∃ l, chain nodes (obj_next this) l ∧ length l = successors n.
Proof.
  remember (successors n) as k eqn:Hk. revert this n Hk.
  induction k as [|k IH]; intros this n Hk Hr.
  - destruct n as [s e i a b [n'|]]; [done|].
    destruct Hr as (_ & _ & _ & _ & _ & Hr). simpl in Hr.
    destruct (obj_next this) as [q|]; [done|].
    exists []. split; [constructor|done].
  - destruct n as [s e i a b [n'|]]; [|done].
    destruct Hr as (_ & _ & _ & _ & _ & Hr). simpl in Hr, Hk.
    destruct (obj_next this) as [q|]; [|done].
    destruct Hr as (this' & Hq & Hr'). injection Hk as Hk.
    destruct (IH this' n' Hk Hr') as (l & Hc & Hlen).
    exists (q :: l). split; [by econstructor|]. simpl. by rewrite Hlen.
Qed.

Lemma chain_represents nodes this l :
  chain nodes (obj_next this) l →
  ∃ n, represents nodes this n ∧ successors n = length l.
Proof.
  revert this. induction l as [|q l IH]; intros this Hc.
  - inversion Hc as [Hnone|]; subst.
    exists (mkComputeNode (obj_start this) (obj_end this) (obj_inc this)
              (obj_lda this) (obj_ldb this) None).
    simpl. by rewrite <- Hnone.
  - inversion Hc as [|p this' l' Hp Hc' Hsome]; subst.
    destruct (IH this' Hc') as (n' & Hr & Hlen).
    exists (mkComputeNode (obj_start this) (obj_end this) (obj_inc this)
              (obj_lda this) (obj_ldb this) (Some n')).
    simpl. rewrite <- Hsome. split; [|by rewrite Hlen].
    split_and!; try done. by exists this'.
Qed.

(** Property X8.  [delete p] is defined exactly when the object at [p] holds
    a value of [ComputeNode], that is a finite list of nodes; it then ends
    the lifetime of that node and of its successors, one object per node of
    the value. *)
Theorem delete_node_represents nodes p :
  (is_Some (delete_node p nodes) ↔
   ∃ this n, nodes !! p = Some this ∧ represents nodes this n) ∧
  (∀ this n nodes', nodes !! p = Some this → represents nodes this n →
     delete_node p nodes = Some nodes' →
     (size nodes' + S (successors n) = size nodes)%nat).
Proof.
  split; [split|].
  - intros [nodes' Hd]. apply delete_ComputeNode_inv in Hd as (l & Hc & _).
    inversion Hc as [|p' this l' Hp Hc']; subst.
    destruct (chain_represents _ _ _ Hc') as (n & Hr & _). eauto.
  - intros (this & n & Hp & Hr).
    destruct (represents_chain _ _ _ Hr) as (l & Hc & _).
    rewrite (delete_node_chain nodes p (p :: l)); [eauto|]. by econstructor.
  - intros this n nodes' Hp Hr Hd.
    destruct (represents_chain _ _ _ Hr) as (l & Hc & Hlen).
    assert (chain nodes (Some p) (p :: l)) as Hc' by (by econstructor).
    rewrite (delete_node_chain _ _ _ Hc') in Hd. injection Hd as <-.
    rewrite <- Hlen.
    apply (size_release (p :: l)); [by eapply chain_NoDup|by eapply chain_live].
Qed.

(** ** Root nodes with a common successor *)

Lemma elem_of_concat_lookup {A} (ls : list (list A)) k lk (x : A) :
  ls !! k = Some lk → x ∈ lk → x ∈ concat ls.
Proof.
  revert k. induction ls as [|l ls IH]; intros k Hk Hx; [done|].
  simpl. apply elem_of_app. destruct k as [|k]; simpl in Hk.
  - left. congruence.
  - right. by eapply IH.
Qed.

Lemma NoDup_concat_lookup {A} (ls : list (list A)) i j li lj (x : A) :
  NoDup (concat ls) → ls !! i = Some li → ls !! j = Some lj → i ≠ j →
  x ∈ li → x ∈ lj → False.
Proof.
  revert i j. induction ls as [|l ls IH]; intros i j Hnd Hi Hj Hne Hxi Hxj; [done|].
  simpl in Hnd. apply NoDup_app in Hnd as (_ & Hdisj & Hnd).
  destruct i as [|i], j as [|j]; simpl in Hi, Hj; try done.
  - injection Hi as ->. apply (Hdisj x Hxi). by eapply elem_of_concat_lookup.
  - injection Hj as ->. apply (Hdisj x Hxj). by eapply elem_of_concat_lookup.
  - apply (IH i j); auto.
Qed.

(** Property X9.  Two root nodes of one plan must not have the same
    successor: if two elements of the array hold the same non-null
    [next], [~Plan()] deletes that node twice, which is undefined
    behaviour. *)
Theorem Plan_dtor_shared_successor this s a cells i j ci cj q :
  obj_rootNodes_ this = Some a →
  live_arrays s !! a = Some cells →
  cells !! i = Some ci → cells !! j = Some cj → i ≠ j →
  obj_next ci = Some q → obj_next cj = Some q →
  Plan_dtor this s = None.
Proof.
  intros Ha Hcells Hi Hj Hne Hqi Hqj.
  unfold Plan_dtor, delete_ComputeNode_array. rewrite Ha, Hcells.
  destruct (destroy_elements cells (live_nodes s)) as [nodes'|] eqn:Hd; [|done].
  exfalso. apply destroy_elements_inv in Hd as (ls & [HF Hnd] & _).
  destruct (Forall2_lookup_l _ _ _ _ _ HF Hi) as (li & Hli & Hci).
  destruct (Forall2_lookup_l _ _ _ _ _ HF Hj) as (lj & Hlj & Hcj).
  rewrite Hqi in Hci. rewrite Hqj in Hcj.
  inversion Hci; subst. inversion Hcj; subst.
  eapply (NoDup_concat_lookup ls i j); eauto; apply list_elem_of_here.
Qed.

(** ** The plan constructor on every vector *)

Lemma product_perm l l' : l ≡ₚ l' → product l = product l'.
Proof.
  unfold product. induction 1 as [|x l l' _ IH|x y l|l1 l2 l3 _ IH1 _ IH2]; simpl; lia.
Qed.

Lemma product_zero l : 0 ∈ l → product l = 0.
Proof.
  unfold product. induction l as [|x l IH]; intros Hin.
  - by apply elem_of_nil in Hin.
  - simpl. apply elem_of_cons in Hin as [<-|Hin]; [lia|]. rewrite IH by done. lia.
Qed.

Lemma int_eq_of_congr a b :
  INT_MIN ≤ a ≤ INT_MAX → INT_MIN ≤ b ≤ INT_MAX → (a - b) mod 2 ^ 32 = 0 → a = b.
Proof.
  unfold INT_MIN, INT_MAX. intros Ha Hb Hc.
  apply Z.mod_divide in Hc; [|lia]. destruct Hc as [k Hk]. lia.
Qed.

Lemma fold_int_mul_same l l' :
  (product l - product l') mod 2 ^ 32 = 0 →
  fold_left int_mul l 1 = fold_left int_mul l' 1.
Proof.
  intros Hp. apply int_eq_of_congr; try apply fold_int_mul_range.
  pose proof (fold_int_mul_congr l 1) as H1.
  pose proof (fold_int_mul_congr l' 1) as H2.
  apply Z.mod_divide in H1; [|lia]. apply Z.mod_divide in H2; [|lia].
  apply Z.mod_divide in Hp; [|lia]. apply Z.mod_divide; [lia|].
  destruct H1 as [a Ha]. destruct H2 as [b Hb]. destruct Hp as [c Hc].
  exists (a - b + c). lia.
Qed.

Lemma Plan_ctor_Ok w loopOrder numThreadsAtLoop p :
  Plan_ctor w loopOrder numThreadsAtLoop = Ok p →
  0 ≤ fold_left int_mul numThreadsAtLoop 1 ∧
  p = {| numTasks_ := fold_left int_mul numThreadsAtLoop 1;
         loopOrder_ := loopOrder;
         numThreadsAtLoop_ := numThreadsAtLoop;
         rootNodes_ := replicate (Z.to_nat (fold_left int_mul numThreadsAtLoop 1))
                         (ComputeNode_ctor w) |}.
Proof.
  unfold Plan_ctor, new_ComputeNode_array.
  destruct (decide (_ < 0)); [done|]. simpl. intros [= <-]. split; [lia|done].
Qed.

(** Property X10.  Whatever the two vectors are, a plan the constructor
    returns has exactly [numTasks_] root nodes, all of them
    default-constructed, with 0 ≤ [numTasks_] ≤ INT_MAX and [numTasks_]
    congruent to the product of the parallelism vector modulo 2^32; the loop
    order is stored as given, whatever its length and entries. *)
Theorem Plan_ctor_invariant w loopOrder numThreadsAtLoop p :
  Plan_ctor w loopOrder numThreadsAtLoop = Ok p →
  0 ≤ numTasks_ p ≤ INT_MAX ∧
  Z.of_nat (length (rootNodes_ p)) = numTasks_ p ∧
  Forall (λ n, n = ComputeNode_ctor w) (rootNodes_ p) ∧
  (numTasks_ p - product numThreadsAtLoop) mod 2 ^ 32 = 0 ∧
  loopOrder_ p = loopOrder ∧ numThreadsAtLoop_ p = numThreadsAtLoop.
Proof.
  intros Hp. apply Plan_ctor_Ok in Hp as [Hn ->]. simpl.
  pose proof (fold_int_mul_range numThreadsAtLoop) as Hr.
  split_and!; try done; try lia.
  - rewrite length_replicate. lia.
  - by apply Forall_replicate.
  - pose proof (fold_int_mul_congr numThreadsAtLoop 1) as Hc.
    by rewrite Z.mul_1_l in Hc.
Qed.

(** Property X11.  When the product of the parallelism vector is a negative
    [int] the constructor ends in [std::bad_alloc], raised by the array
    allocation, whatever the loop order is; no plan is built. *)
Theorem Plan_ctor_negative_product w loopOrder numThreadsAtLoop :
  INT_MIN ≤ product numThreadsAtLoop < 0 →
  Plan_ctor w loopOrder numThreadsAtLoop = Throw std_bad_alloc.
Proof.
  intros Hp. unfold Plan_ctor, new_ComputeNode_array.
  rewrite fold_int_mul_product by (unfold INT_MAX; lia).
  by rewrite decide_True by lia.
Qed.

(** Property X12.  The number of tasks and the root nodes do not depend on
    the order of the entries of the parallelism vector: two vectors that are
    permutations of each other give plans with the same [numTasks_] and the
    same root nodes, or both raise the same exception. *)
Theorem Plan_ctor_permutation w loopOrder loopOrder' numThreadsAtLoop numThreadsAtLoop' :
  numThreadsAtLoop ≡ₚ numThreadsAtLoop' →
  match Plan_ctor w loopOrder numThreadsAtLoop,
        Plan_ctor w loopOrder' numThreadsAtLoop' with
  | Ok p, Ok p' => numTasks_ p = numTasks_ p' ∧ rootNodes_ p = rootNodes_ p'
  | Throw e, Throw e' => e = e'
  | _, _ => False
  end.
Proof.
  intros Hperm. unfold Plan_ctor, new_ComputeNode_array.
  rewrite (fold_int_mul_same numThreadsAtLoop numThreadsAtLoop').
  - by destruct (decide (_ < 0)).
  - rewrite (product_perm _ _ Hperm), Z.sub_diag. done.
Qed.

(** Property X13.  A parallelism vector with an entry 0 gives a plan with no
    task and no root node. *)
Theorem Plan_ctor_zero_entry w loopOrder numThreadsAtLoop :
  0 ∈ numThreadsAtLoop →
  Plan_ctor w loopOrder numThreadsAtLoop =
  Ok {| numTasks_ := 0; loopOrder_ := loopOrder;
        numThreadsAtLoop_ := numThreadsAtLoop; rootNodes_ := [] |}.
Proof.
  intros Hin. unfold Plan_ctor, new_ComputeNode_array.
  rewrite (fold_int_mul_same numThreadsAtLoop [0]).
  - done.
  - rewrite (product_zero _ Hin). done.
Qed.

(** Property X14.  For a plan the constructor returned, [getRootNode] and
    [getRootNode_const] hand out the same node, they do so exactly for the
    thread ids 0 ≤ threadId < getNumTasks(), and that node is a
    default-constructed one; any other thread id is outside the array. *)
Theorem getRootNode_in_range w loopOrder numThreadsAtLoop p threadId :
  Plan_ctor w loopOrder numThreadsAtLoop = Ok p →
  getRootNode p threadId = getRootNode_const p threadId ∧
  (is_Some (getRootNode p threadId) ↔ 0 ≤ threadId < getNumTasks p) ∧
  (0 ≤ threadId < getNumTasks p →
   getRootNode p threadId = Some (ComputeNode_ctor w)).
Proof.
  intros Hp. apply Plan_ctor_Ok in Hp as [Hn ->].
  unfold getRootNode, getRootNode_const, getNumTasks. simpl.
  set (n := fold_left int_mul numThreadsAtLoop 1) in *.
  split; [done|]. split.
  - destruct (decide (0 ≤ threadId)) as [Hi|Hi].
    + rewrite lookup_lt_is_Some, length_replicate. lia.
    + split; [by intros [? ?]|lia].
  - intros Hi. rewrite decide_True by lia.
    apply lookup_replicate_2. lia.
Qed.

(** ** Tile edges in bytes *)

(** Property X15.  For the four element types and both register widths the
    divisions that define the tile edges are exact and never give 0: a
    register holds exactly [blocking_micro_] elements, and a row of
    [blocking_] elements fills exactly four registers (half of
    REGISTER_BITS, counted in bytes), whatever the element type. *)
Theorem blocking_exact (a : arch) (t : floatType) :
  blocking_micro_ a t * sizeof t * 8 = REGISTER_BITS a ∧
  blocking_ a t * sizeof t = REGISTER_BITS a / 2 ∧
  1 ≤ blocking_micro_ a t ∧ 4 ≤ blocking_ a t.
Proof. destruct a, t; vm_compute; repeat split; discriminate. Qed.

(** ** Setters, getters and copies *)

(** Property X16.  The six setters compose as assignments to separate
    members: setters of different members commute, of two calls of one
    setter the last one wins, and storing what the getter of a member
    returned changes nothing. *)
Theorem setters_compose {T : Type} (t : Transpose T)
    (alpha alpha' beta beta' : T) (A A' B B' n n' id id' : Z) :
  (setAlpha alpha (setBeta beta t) = setBeta beta (setAlpha alpha t) ∧
   setAlpha alpha (setInputPtr A t) = setInputPtr A (setAlpha alpha t) ∧
   setAlpha alpha (setOutputPtr B t) = setOutputPtr B (setAlpha alpha t) ∧
   setAlpha alpha (setNumThreads n t) = setNumThreads n (setAlpha alpha t) ∧
   setAlpha alpha (setParallelStrategy id t) = setParallelStrategy id (setAlpha alpha t) ∧
   setBeta beta (setInputPtr A t) = setInputPtr A (setBeta beta t) ∧
   setBeta beta (setOutputPtr B t) = setOutputPtr B (setBeta beta t) ∧
   setBeta beta (setNumThreads n t) = setNumThreads n (setBeta beta t) ∧
   setBeta beta (setParallelStrategy id t) = setParallelStrategy id (setBeta beta t) ∧
   setInputPtr A (setOutputPtr B t) = setOutputPtr B (setInputPtr A t) ∧
   setInputPtr A (setNumThreads n t) = setNumThreads n (setInputPtr A t) ∧
   setInputPtr A (setParallelStrategy id t) = setParallelStrategy id (setInputPtr A t) ∧
   setOutputPtr B (setNumThreads n t) = setNumThreads n (setOutputPtr B t) ∧
   setOutputPtr B (setParallelStrategy id t) = setParallelStrategy id (setOutputPtr B t) ∧
   setNumThreads n (setParallelStrategy id t) = setParallelStrategy id (setNumThreads n t)) ∧
  (setAlpha alpha (setAlpha alpha' t) = setAlpha alpha t ∧
   setBeta beta (setBeta beta' t) = setBeta beta t ∧
   setInputPtr A (setInputPtr A' t) = setInputPtr A t ∧
   setOutputPtr B (setOutputPtr B' t) = setOutputPtr B t ∧
   setNumThreads n (setNumThreads n' t) = setNumThreads n t ∧
   setParallelStrategy id (setParallelStrategy id' t) = setParallelStrategy id t) ∧
  (setAlpha (getAlpha t) t = t ∧ setBeta (getBeta t) t = t ∧
   setInputPtr (getInputPtr t) t = t ∧ setOutputPtr (getOutputPtr t) t = t ∧
   setNumThreads (getNumThreads t) t = t).
Proof. destruct t. split_and!; reflexivity. Qed.

(** Property X17.  A copy answers every getter as the original does and
    shares its master plan; copying commutes with each setter, and the copy
    of a copy is the copy. *)
Theorem Transpose_copy_observable {T : Type} (t : Transpose T)
    (alpha beta : T) (A B n id : Z) :
  (getAlpha (Transpose_copy t) = getAlpha t ∧
   getBeta (Transpose_copy t) = getBeta t ∧
   getInputPtr (Transpose_copy t) = getInputPtr t ∧
   getOutputPtr (Transpose_copy t) = getOutputPtr t ∧
   getNumThreads (Transpose_copy t) = getNumThreads t ∧
   masterPlan_ (Transpose_copy t) = masterPlan_ t) ∧
  (Transpose_copy (setAlpha alpha t) = setAlpha alpha (Transpose_copy t) ∧
   Transpose_copy (setBeta beta t) = setBeta beta (Transpose_copy t) ∧
   Transpose_copy (setInputPtr A t) = setInputPtr A (Transpose_copy t) ∧
   Transpose_copy (setOutputPtr B t) = setOutputPtr B (Transpose_copy t) ∧
   Transpose_copy (setNumThreads n t) = setNumThreads n (Transpose_copy t) ∧
   Transpose_copy (setParallelStrategy id t) = setParallelStrategy id (Transpose_copy t)) ∧
  Transpose_copy (Transpose_copy t) = Transpose_copy t.
Proof. destruct t. split_and!; reflexivity. Qed.

(** ** The primary constructor *)

(** Property X18.  With a negative [dim] the constructor ends in
    [std::length_error], raised by the first [resize], before any of its
    other arguments is looked at. *)
Theorem Transpose_ctor_negative_dim {T : Type}
    (sizeA perm outerSizeA outerSizeB : list Z) (dim : Z)
    (A : Z) (alpha : T) (B : Z) (beta : T) (m : SelectionMethod) (numThreads : Z) :
  dim < 0 →
  Transpose_ctor sizeA perm outerSizeA outerSizeB dim A alpha B beta m numThreads
  = Throw std_length_error.
Proof.
  intros Hdim. unfold Transpose_ctor, resize_members, vector_resize.
  by rewrite decide_True by done.
Qed.

(** Property X19.  An object the constructor returns answers the getters
    with the constructor's arguments, whatever the thread count is, and has
    no master plan yet; the parallel strategy id is −1 and
    [blocking_constStride1_] is 1. *)
Theorem Transpose_ctor_getters {T : Type}
    (sizeA perm outerSizeA outerSizeB : list Z) (dim : Z)
    (A : Z) (alpha : T) (B : Z) (beta : T) (m : SelectionMethod) (numThreads : Z)
    (t : Transpose T) :
  Transpose_ctor sizeA perm outerSizeA outerSizeB dim A alpha B beta m numThreads
  = Ok t →
  getInputPtr t = A ∧ getOutputPtr t = B ∧ getAlpha t = alpha ∧ getBeta t = beta ∧
  getNumThreads t = numThreads ∧ selectionMethod_ t = m ∧
  masterPlan_ t = None ∧ selectedParallelStrategyId_ t = -1 ∧
  blocking_constStride1_ t = Some 1.
Proof.
  unfold Transpose_ctor, resize_members, vector_resize.
  destruct (decide (dim < 0)); [done|]. simpl.
  match goal with
  | |- outcome_bind ?v _ = _ → _ => destruct v as [[]|e]; [|done]
  end.
  simpl. by intros [= <-].
Qed.

(** ** The properties at concrete inputs *)

Lemma delete_node_releases_chain_witness :
  ∃ nodes', delete_node 1%positive (live_nodes example_store) = Some nodes' ∧
    ∀ q, nodes' !! q =
      if decide (q ∈ [1%positive; 2%positive]) then None
      else live_nodes example_store !! q.
Proof.
  apply (delete_node_releases_chain (live_nodes example_store) 1%positive
           [1%positive; 2%positive]).
  econstructor; [reflexivity|]. econstructor; [reflexivity|]. constructor.
Defined.

Lemma Plan_dtor_releases_trees_witness :
  ∃ s', Plan_dtor (mkPlan_obj 2 [1; 0] [2; 1] (Some 1%positive)) example_store = Some s' ∧
    live_arrays s' = delete 1%positive (live_arrays example_store) ∧
    ∀ q, live_nodes s' !! q =
      if decide (q ∈ concat [[1%positive; 2%positive]; [3%positive]]) then None
      else live_nodes example_store !! q.
Proof.
  apply (Plan_dtor_releases_trees (mkPlan_obj 2 [1; 0] [2; 1] (Some 1%positive))
           example_store 1%positive
           [example_node (Some 1%positive); example_node (Some 3%positive)]
           [[1%positive; 2%positive]; [3%positive]]).
  - reflexivity.
  - reflexivity.
  - split.
    + repeat constructor.
      * econstructor; [reflexivity|]. econstructor; [reflexivity|]. constructor.
      * econstructor; [reflexivity|]. constructor.
    + simpl. apply (bool_decide_unpack _). vm_compute. exact I.
Defined.

Lemma Plan_obj_ctor_dtor_witness :
  Plan_dtor (mkPlan_obj 6 [1; 0] [2; 3] (Some 2%positive))
    {| live_nodes := live_nodes example_store;
       live_arrays := <[2%positive := replicate 6 (ComputeNode_obj_ctor 64)]>
                        (live_arrays example_store) |}
  = Some example_store.
Proof.
  apply (Plan_obj_ctor_dtor 64 [1; 0] [2; 3] example_store). reflexivity.
Defined.

Lemma Plan_dtor_twice_witness :
  Plan_dtor (mkPlan_obj 2 [1; 0] [2; 1] (Some 1%positive))
    {| live_nodes := <[4%positive := example_node None]> ∅; live_arrays := ∅ |}
  = None.
Proof.
  apply (Plan_dtor_twice (mkPlan_obj 2 [1; 0] [2; 1] (Some 1%positive))
           (mkPlan_obj 2 [1; 0] [2; 1] (Some 1%positive)) example_store).
  - eexists. reflexivity.
  - reflexivity.
  - vm_compute. reflexivity.
Defined.

Lemma Plan_ctor_invariant_witness :
  let p := {| numTasks_ := 2; loopOrder_ := [0; 1];
              numThreadsAtLoop_ := [3; 1431655766];
              rootNodes_ := [ComputeNode_ctor 64; ComputeNode_ctor 64] |} in
  0 ≤ numTasks_ p ≤ INT_MAX ∧
  Z.of_nat (length (rootNodes_ p)) = numTasks_ p ∧
  Forall (λ n, n = ComputeNode_ctor 64) (rootNodes_ p) ∧
  (numTasks_ p - product [3; 1431655766]) mod 2 ^ 32 = 0 ∧
  loopOrder_ p = [0; 1] ∧ numThreadsAtLoop_ p = [3; 1431655766].
Proof.
  apply (Plan_ctor_invariant 64 [0; 1] [3; 1431655766]). vm_compute. reflexivity.
Defined.

Lemma Plan_ctor_negative_product_witness :
  Plan_ctor 64 [0; 1] [2; -3] = Throw std_bad_alloc.
Proof.
  apply (Plan_ctor_negative_product 64 [0; 1] [2; -3]). vm_compute.
  split; [discriminate|reflexivity].
Defined.

Lemma Plan_ctor_permutation_witness :
  match Plan_ctor 64 [0; 1] [2; 3], Plan_ctor 64 [1; 0] [3; 2] with
  | Ok p, Ok p' => numTasks_ p = numTasks_ p' ∧ rootNodes_ p = rootNodes_ p'
  | Throw e, Throw e' => e = e'
  | _, _ => False
  end.
Proof.
  apply (Plan_ctor_permutation 64 [0; 1] [1; 0] [2; 3] [3; 2]). apply perm_swap.
Defined.

Lemma Plan_ctor_zero_entry_witness :
  Plan_ctor 64 [0; 1; 2] [4; 0; 2] =
  Ok {| numTasks_ := 0; loopOrder_ := [0; 1; 2];
        numThreadsAtLoop_ := [4; 0; 2]; rootNodes_ := [] |}.
Proof.
  apply (Plan_ctor_zero_entry 64 [0; 1; 2] [4; 0; 2]).
  apply list_elem_of_further, list_elem_of_here.
Defined.

Lemma getRootNode_in_range_witness :
  let p := {| numTasks_ := 6; loopOrder_ := [1; 0]; numThreadsAtLoop_ := [2; 3];
              rootNodes_ := replicate 6 (ComputeNode_ctor 64) |} in
  getRootNode p 6 = getRootNode_const p 6 ∧
  (is_Some (getRootNode p 6) ↔ 0 ≤ 6 < getNumTasks p) ∧
  (0 ≤ 6 < getNumTasks p → getRootNode p 6 = Some (ComputeNode_ctor 64)).
Proof.
  apply (getRootNode_in_range 64 [1; 0] [2; 3]). vm_compute. reflexivity.
Defined.

Lemma Transpose_ctor_negative_dim_witness :
  Transpose_ctor [3; 2] [1; 0] [3; 2] [2; 3] (-1) 0 1 100 0 ESTIMATE 1
  = Throw std_length_error.
Proof.
  apply (Transpose_ctor_negative_dim (T:=Z) [3; 2] [1; 0] [3; 2] [2; 3] (-1)). lia.
Defined.

Lemma Transpose_ctor_getters_witness :
  ∃ t, Transpose_ctor [3; 2] [1; 0] [3; 2] [2; 3] 2 0 2 100 3 MEASURE 0 = Ok t ∧
    getInputPtr t = 0 ∧ getOutputPtr t = 100 ∧ getAlpha t = 2 ∧ getBeta t = 3 ∧
    getNumThreads t = 0 ∧ selectionMethod_ t = MEASURE ∧
    masterPlan_ t = None ∧ selectedParallelStrategyId_ t = -1 ∧
    blocking_constStride1_ t = Some 1.
Proof.
  eexists. split; [vm_compute; reflexivity|].
  apply (Transpose_ctor_getters (T:=Z) [3; 2] [1; 0] [3; 2] [2; 3] 2 0 2 100 3 MEASURE 0).
  vm_compute. reflexivity.
Defined.

Lemma delete_node_defined_witness :
  delete_node 1%positive (<[1%positive := example_node (Some 1%positive)]> ∅) = None.
Proof.
  apply (proj2 (proj2 (delete_node_defined
           (<[1%positive := example_node (Some 1%positive)]> ∅) 1%positive))
           (example_node (Some 1%positive))); reflexivity.
Defined.

Lemma delete_node_represents_witness :
  (size (release [1%positive; 2%positive] (live_nodes example_store))
   + S (successors (mkComputeNode 0 4 1 1 4 (Some (mkComputeNode 0 4 1 1 4 None))))
   = size (live_nodes example_store))%nat.
Proof.
  apply (proj2 (delete_node_represents (live_nodes example_store) 1%positive)
           (example_node (Some 2%positive))).
  - reflexivity.
  - repeat split. exists (example_node None). by repeat split.
  - vm_compute. reflexivity.
Defined.

Lemma Plan_dtor_shared_successor_witness :
  Plan_dtor (mkPlan_obj 2 [1; 0] [2; 1] (Some 1%positive))
    {| live_nodes := <[3%positive := example_node None]> ∅;
       live_arrays := <[1%positive := [example_node (Some 3%positive);
                                       example_node (Some 3%positive)]]> ∅ |}
  = None.
Proof.
  apply (Plan_dtor_shared_successor _ _ 1%positive
           [example_node (Some 3%positive); example_node (Some 3%positive)]
           0%nat 1%nat (example_node (Some 3%positive))
           (example_node (Some 3%positive)) 3%positive);
    try reflexivity. discriminate.
Defined.
